(** * A model of [cache_model.py]: a FIFO cache hierarchy, its trial runner,
      the convergence estimator, the address generators and the sweep.

    Python integers are unbounded, so they are [Z].  The resident set of a
    cache level is a [gset Z], its queue a [list Z] (oldest first).  Python
    exceptions are the constructors of [exn]; a call that can raise returns a
    [result].  The numbers of [mean] and of the trial runner are binary
    floats in Python; their operations are the methods of the class [PyNum],
    about which nothing is assumed but that a division by zero raises.  The
    rationals [Qc], with exact operations, are one instance: a run in it is
    the run of the code only on data for which the float operations of
    that run are exact. *)

From Stdlib Require Import QArith Qcanon Qcabs.
From stdpp Require Import base numbers list gmap.

Local Open Scope Z_scope.
#[local] Set Warnings "-clear-no-such-hyp".

(** ** Exceptions *)

Inductive exn : Set :=
| AssertionError
| IndexError
| KeyError
| ZeroDivisionError
| OverflowError
| ValueError.

Inductive result (A : Type) : Type :=
| Ok (a : A)
| Raise (e : exn).
Arguments Ok {A} a.
Arguments Raise {A} e.

#[global] Instance result_ret : MRet result := fun _ a => Ok a.
#[global] Instance result_bind : MBind result := fun _ _ f m =>
  match m with
  | Ok a => f a
  | Raise e => Raise e
  end.

(** ** Memory models *)

(** The state and configuration of one [CacheModel] object, without the
    reference to the next level. *)
Record CacheLevel : Type := mkCacheLevel {
  n_lines : Z;
  line_size : Z;
  hit_penalty : Z;
  cached_lines_queue : list Z;
  cached_lines_set : gset Z;
  total_penalty : Z
}.

(** A hierarchy: each [CacheModel] owns its [next_memory]. *)
Inductive MemoryModel : Type :=
| RamModel (access_penalty : Z) (ram_total_penalty : Z)
| CacheModel (c : CacheLevel) (next_memory : MemoryModel).

(** [RamModel.__init__] *)
Definition RamModel_init (access_penalty : Z) : MemoryModel :=
  RamModel access_penalty 0.

(** [CacheModel.__init__]: the two asserts reject a zero, and only a zero. *)
Definition CacheModel_init (n_lines line_size hit_penalty : Z)
    (next_memory : MemoryModel) : result MemoryModel :=
  if n_lines =? 0 then Raise AssertionError
  else if line_size =? 0 then Raise AssertionError
  else Ok (CacheModel (mkCacheLevel n_lines line_size hit_penalty [] ∅ 0) next_memory).

Definition add_penalty (c : CacheLevel) (p : Z) : CacheLevel :=
  mkCacheLevel (n_lines c) (line_size c) (hit_penalty c)
    (cached_lines_queue c) (cached_lines_set c) (total_penalty c + p).

Definition set_lines (c : CacheLevel) (q : list Z) (s : gset Z) : CacheLevel :=
  mkCacheLevel (n_lines c) (line_size c) (hit_penalty c) q s (total_penalty c).

(** [list.pop(0)] *)
Definition pop0 (q : list Z) : result (Z * list Z) :=
  match q with
  | [] => Raise IndexError
  | x :: q' => Ok (x, q')
  end.

(** [set.remove(x)] *)
Definition set_remove (s : gset Z) (x : Z) : result (gset Z) :=
  if decide (x ∈ s) then Ok (s ∖ {[x]}) else Raise KeyError.

(** [CacheModel._add_to_cache] *)
Definition _add_to_cache (c : CacheLevel) (line_id : Z) : result CacheLevel :=
  if decide (line_id ∈ cached_lines_set c) then Ok c
  else
    c1 ← (if Z.of_nat (length (cached_lines_queue c)) =? n_lines c then
            '(line_to_remove, q) ← pop0 (cached_lines_queue c);
            s ← set_remove (cached_lines_set c) line_to_remove;
            Ok (set_lines c q s)
          else Ok c);
    Ok (set_lines c1 (cached_lines_queue c1 ++ [line_id])
          ({[line_id]} ∪ cached_lines_set c1)).

(** [CacheModel._increment_penalties]; [access_next] is the bound method
    [self.next_memory.perform_access]. *)
Definition _increment_penalties (access_next : Z → result MemoryModel)
    (c : CacheLevel) (next_memory : MemoryModel) (line_id address : Z)
    : result (CacheLevel * MemoryModel) :=
  if decide (line_id ∈ cached_lines_set c) then
    Ok (add_penalty c (hit_penalty c), next_memory)
  else
    next' ← access_next address; Ok (c, next').

(** Floor division [a // b]. *)
Definition floordiv (a b : Z) : result Z :=
  if b =? 0 then Raise ZeroDivisionError else Ok (a / b).

(** [MemoryModel.perform_access], by dispatch on the kind of level. *)
Fixpoint perform_access (m : MemoryModel) (address : Z) : result MemoryModel :=
  match m with
  | RamModel access_penalty total => Ok (RamModel access_penalty (total + access_penalty))
  | CacheModel c next_memory =>
      line_id ← floordiv address (line_size c);
      '(c1, next1) ← _increment_penalties (perform_access next_memory) c next_memory line_id address;
      c2 ← _add_to_cache c1 line_id;
      Ok (CacheModel c2 next1)
  end.

(** [MemoryModel.get_total_penalty] *)
Fixpoint get_total_penalty (m : MemoryModel) : Z :=
  match m with
  | RamModel _ total => total
  | CacheModel c next_memory =>
      let next_memory_penalty := get_total_penalty next_memory in
      let my_penalty := total_penalty c in
      next_memory_penalty + my_penalty
  end.

(** The [for] loop of [perform_accesses]: the state of the hierarchy after
    the accesses. *)
Fixpoint access_all (model : MemoryModel) (addresses : list Z) : result MemoryModel :=
  match addresses with
  | [] => Ok model
  | addr :: rest => model' ← perform_access model addr; access_all model' rest
  end.

(** [perform_accesses] *)
Definition perform_accesses (model : MemoryModel) (addresses : list Z) : result Z :=
  model' ← access_all model addresses; Ok (get_total_penalty model').

(** ** The hierarchy of the experiments *)

Definition KB : Z := 1024.
Definition MB : Z := 1024 * KB.
Definition GB : Z := 1024 * MB.

(** [create_memory_models] *)
Definition create_memory_models : result MemoryModel :=
  let DRAM := RamModel_init 1000000 in
  L3_CACHE ← CacheModel_init (3 * KB) (8 * KB) 10000 DRAM;
  L2_CACHE ← CacheModel_init (12 * KB) KB 10000 L3_CACHE;
  L1_CACHE ← CacheModel_init KB 128 1 L2_CACHE;
  Ok L1_CACHE.

(** ** Python's numbers *)

(** The operations of Python on the numbers that [mean] and the trial
    runner handle: floats, and the ints that are mixed with them.  The
    values they give are left open (floats round, and a quotient out of
    range raises [OverflowError]); the two laws are Python's
    [ZeroDivisionError]. *)
Class PyNum (num : Type) : Type := {
  num_of_int : Z → num;
  num_add : num → num → num;
  num_sub : num → num → num;
  num_abs : num → num;
  num_lt : num → num → bool;
  truediv : num → Z → result num;
  int_truediv : Z → Z → result num;
  truediv_zero : ∀ a, truediv a 0 = Raise ZeroDivisionError;
  int_truediv_zero : ∀ a, int_truediv a 0 = Raise ZeroDivisionError
}.

(** ** The convergence estimator *)

(** The local variables of [mean]. *)
Record mean_state (num : Type) : Type := mkMeanState {
  ms_n : Z;
  ms_sum : num;
  ms_mean : num;
  ms_n_successes : Z
}.
Arguments mkMeanState {num} ms_n ms_sum ms_mean ms_n_successes.
Arguments ms_n {num} m.
Arguments ms_sum {num} m.
Arguments ms_mean {num} m.
Arguments ms_n_successes {num} m.

(** What one turn of the loop of [mean] does: go on with new locals, return
    [cur_mean] (with the value of [n] at that point), or raise. *)
Inductive mean_step_result (num : Type) : Type :=
| Next (st : mean_state num)
| Return (n : Z) (cur_mean : num)
| Abort (e : exn).
Arguments Next {num} st.
Arguments Return {num} n cur_mean.
Arguments Abort {num} e.

(** How a call of [mean] ends: at the [return cur_mean] inside the loop, at
    the final [return mean], or with an exception; [trials] is the value of
    [n], the number of items taken from [data]. *)
Inductive mean_outcome (num : Type) : Type :=
| Converged (trials : Z) (cur_mean : num)
| Exhausted (trials : Z) (last_mean : num)
| Failed (e : exn).
Arguments Converged {num} trials cur_mean.
Arguments Exhausted {num} trials last_mean.
Arguments Failed {num} e.

Section estimator.
Context {num : Type} {Hnum : PyNum num}.

(** The body of the loop of [mean]: [sum += x], [n += 1],
    [cur_mean = sum / n], [error = abs(mean - cur_mean)], the test
    [error < eps] and the counter of successes, then [mean = cur_mean]. *)
Definition mean_step (eps : num) (n_expected_successes : Z)
    (st : mean_state num) (x : num) : mean_step_result num :=
  let sum := num_add (ms_sum st) x in
  let n := ms_n st + 1 in
  match truediv sum n with
  | Raise e => Abort e
  | Ok cur_mean =>
      let error := num_abs (num_sub (ms_mean st) cur_mean) in
      if num_lt error eps then
        let n_successes := ms_n_successes st + 1 in
        if n_successes <? n_expected_successes then
          Next (mkMeanState n sum cur_mean n_successes)
        else Return n cur_mean
      else Next (mkMeanState n sum cur_mean 0)
  end.

(** The loop of [mean] over the items that the iterable [data] produces; an
    item is a value, or the exception that the iterable raises in its
    place. *)
Fixpoint mean_loop (eps : num) (n_expected_successes : Z)
    (st : mean_state num) (data : list (result num)) : mean_outcome num :=
  match data with
  | [] => if ms_n st =? 0 then Failed AssertionError
          else Exhausted (ms_n st) (ms_mean st)
  | Raise e :: _ => Failed e
  | Ok x :: rest =>
      match mean_step eps n_expected_successes st x with
      | Next st' => mean_loop eps n_expected_successes st' rest
      | Return n cur_mean => Converged n cur_mean
      | Abort e => Failed e
      end
  end.

(** [n = 0], [sum = 0], [mean = 0], [n_successes = 0]. *)
Definition mean_init : mean_state num :=
  mkMeanState 0 (num_of_int 0) (num_of_int 0) 0.

Definition mean_run (data : list (result num)) (eps : num)
    (n_expected_successes : Z) : mean_outcome num :=
  mean_loop eps n_expected_successes mean_init data.

(** [mean] *)
Definition mean (data : list (result num)) (eps : num)
    (n_expected_successes : Z) : result num :=
  match mean_run data eps n_expected_successes with
  | Converged _ cur_mean => Ok cur_mean
  | Exhausted _ last_mean => Ok last_mean
  | Failed e => Raise e
  end.

(** The value of [sum] after the items [xs]: they are added one by one,
    from the left, to the int 0. *)
Definition num_sum (xs : list num) : num := foldl num_add (num_of_int 0) xs.
End estimator.

(** The default argument [n_expected_successes] of [mean]. *)
Definition default_n_expected_successes : Z := 3.

(** ** The trial runner *)

Section experiment.
Context {num : Type} {Hnum : PyNum num}.
(** The state behind [generate_addresses] (the random source). *)
Context {G : Type}.
(** [make_memory_model()] builds the hierarchy anew at each call. *)
Variable make_memory_model : result MemoryModel.
(** [list(generate_addresses(stride))] *)
Variable generate_addresses : Z → G → result (list Z) * G.

(** One turn of the loop of [get_penalties], after the addresses are
    drawn: [penalty / len(addresses)] divides two ints. *)
Definition trial (addresses : list Z) : result num :=
  model ← make_memory_model;
  penalty ← perform_accesses model addresses;
  int_truediv penalty (Z.of_nat (length addresses)).

(** The items that the generator [get_penalties] yields, up to and
    including the first exception. *)
Fixpoint get_penalties (stride : Z) (max_retries : nat) (g : G)
    : list (result num) :=
  match max_retries with
  | O => []
  | S k =>
      match generate_addresses stride g with
      | (Raise e, _) => [Raise e]
      | (Ok addresses, g') =>
          match trial addresses with
          | Raise e => [Raise e]
          | Ok v => Ok v :: get_penalties stride k g'
          end
      end
  end.

(** [run_strided_experiment]: [mean(get_penalties(), eps=1)]. *)
Definition run_strided_experiment (stride : Z) (max_retries : Z) (g : G)
    : result num :=
  mean (get_penalties stride (Z.to_nat max_retries) g) (num_of_int 1)
    default_n_expected_successes.
End experiment.

Definition MAX_TRIALS : Z := 100.

(** ** Exact arithmetic *)

(** [a / n] on rationals. *)
Definition Qc_truediv (a : Qc) (n : Z) : result Qc :=
  if n =? 0 then Raise ZeroDivisionError else Ok (a / Qc_of_Z n)%Qc.

(** [a < b] on rationals, as a test. *)
Definition Qcltb (a b : Qc) : bool :=
  match (a ?= b)%Qc with
  | Lt => true
  | _ => false
  end.

(** The rationals with their exact operations.  The float operations of a
    run are exact, and the run in this instance is that of the code, when
    every sum and quotient of the run is a float: so on a stream of
    sevens, and for the first item of any stream. *)
#[global] Instance Qc_num : PyNum Qc := {|
  num_of_int := Qc_of_Z;
  num_add := Qcplus;
  num_sub := Qcminus;
  num_abs := Qcabs;
  num_lt := Qcltb;
  truediv := Qc_truediv;
  int_truediv := fun a n => Qc_truediv (Qc_of_Z a) n;
  truediv_zero := fun a => eq_refl;
  int_truediv_zero := fun a => eq_refl
|}.

(** ** The address generators *)

Definition ARRAY_SIZE : Z := 2 * GB.
Definition MAX_ADDRESSES : Z := 1000000.

(** [len(range(start, stop, step))] *)
Definition range_len (start stop step : Z) : result Z :=
  if step =? 0 then Raise ValueError
  else if 0 <? step then
    Ok (if start <? stop then (stop - start - 1) / step + 1 else 0)
  else
    Ok (if stop <? start then (start - stop - 1) / (- step) + 1 else 0).

(** The random source: an unbounded supply of draws and the position of the
    next one. *)
Record Random : Type := mkRandom {
  entropy : nat → Z;
  cursor : nat
}.

(** A number below [n], for [0 < n]: every one of them can come out. *)
Definition randbelow (g : Random) (n : Z) : Z * Random :=
  (entropy g (cursor g) `mod` n, mkRandom (entropy g) (S (cursor g))).

(** [random.randrange(start, stop, step)]: an element of
    [range(start, stop, step)], or [ValueError] when that range is empty. *)
Definition randrange (g : Random) (start stop step : Z) : result Z * Random :=
  match range_len start stop step with
  | Raise e => (Raise e, g)
  | Ok n =>
      if n <=? 0 then (Raise ValueError, g)
      else let '(k, g') := randbelow g n in (Ok (start + step * k), g')
  end.

(** The [while] loop of [generate_random_strided_addresses], with [res] for
    the list [result]; [None] when [fuel] turns did not end it. *)
Fixpoint random_strided_loop (fuel : nat) (stride n_addresses : Z)
    (result_set : gset Z) (res : list Z) (g : Random)
    : option (result (list Z) * Random) :=
  if Z.of_nat (size result_set) <? n_addresses then
    match fuel with
    | O => None
    | S fuel' =>
        match randrange g 0 ARRAY_SIZE stride with
        | (Raise e, g') => Some (Raise e, g')
        | (Ok n, g') =>
            random_strided_loop fuel' stride n_addresses
              ({[n]} ∪ result_set) (res ++ [n]) g'
        end
    end
  else Some (Ok res, g).

(** [generate_random_strided_addresses] *)
Definition generate_random_strided_addresses (fuel : nat) (stride : Z)
    (g : Random) : option (result (list Z) * Random) :=
  match range_len 0 ARRAY_SIZE stride with
  | Raise e => Some (Raise e, g)
  | Ok n_strided_addresses =>
      let n_addresses := Z.min MAX_ADDRESSES n_strided_addresses in
      random_strided_loop fuel stride n_addresses ∅ [] g
  end.

(** The [for] loop of [generate_directed_strided_addresses], forced to the
    end as [list(...)] does. *)
Fixpoint directed_strided_loop (count : nat) (stride : Z) (g : Random)
    : result (list Z) * Random :=
  match count with
  | O => (Ok [], g)
  | S count' =>
      match randrange g 0 ARRAY_SIZE (2 * stride) with
      | (Raise e, g') => (Raise e, g')
      | (Ok base_addr, g') =>
          match directed_strided_loop count' stride g' with
          | (Raise e, g'') => (Raise e, g'')
          | (Ok rest, g'') => (Ok (base_addr :: base_addr + stride :: rest), g'')
          end
      end
  end.

(** [generate_directed_strided_addresses] *)
Definition generate_directed_strided_addresses (stride : Z) (g : Random)
    : result (list Z) * Random :=
  match range_len 0 ARRAY_SIZE stride with
  | Raise e => (Raise e, g)
  | Ok n_strided_addresses =>
      let n_addresses := Z.min (MAX_ADDRESSES / 2) n_strided_addresses in
      directed_strided_loop (Z.to_nat n_addresses) stride g
  end.

(** The pairs [base, base + stride] of the given bases, in order. *)
Definition paired (stride : Z) (bases : list Z) : list Z :=
  flat_map (λ base_addr, [base_addr; base_addr + stride]) bases.

(** ** Invariants of a cache level *)

(** A predicate on every cache level of a hierarchy. *)
Fixpoint all_levels (P : CacheLevel → Prop) (m : MemoryModel) : Prop :=
  match m with
  | RamModel _ _ => True
  | CacheModel c next_memory => P c ∧ all_levels P next_memory
  end.

(** The cache levels of a hierarchy, root first. *)
Fixpoint levels (m : MemoryModel) : list CacheLevel :=
  match m with
  | RamModel _ _ => []
  | CacheModel c next_memory => c :: levels next_memory
  end.

(** What [__init__] establishes and every access keeps, whatever the sign of
    [n_lines]: the configuration passed the asserts, the queue has no
    duplicates and the set mirrors it. *)
Definition level_wf (c : CacheLevel) : Prop :=
  n_lines c ≠ 0 ∧ line_size c ≠ 0 ∧
  NoDup (cached_lines_queue c) ∧
  cached_lines_set c = list_to_set (cached_lines_queue c).


(** Hierarchies as the constructors build them: no access performed yet. *)
Inductive fresh : MemoryModel → Prop :=
| fresh_ram access_penalty : fresh (RamModel_init access_penalty)
| fresh_cache n l h next_memory m :
    fresh next_memory →
    CacheModel_init n l h next_memory = Ok m →
    fresh m.

(** The FIFO policy in the words of the specification: nothing for a
    resident line; otherwise drop the front of a full queue, then append. *)
Definition fifo_insert (c : CacheLevel) (line_id : Z) : CacheLevel :=
  if decide (line_id ∈ cached_lines_set c) then c
  else if Z.of_nat (length (cached_lines_queue c)) =? n_lines c then
    match cached_lines_queue c with
    | oldest :: rest =>
        set_lines c (rest ++ [line_id]) ({[line_id]} ∪ (cached_lines_set c ∖ {[oldest]}))
    | [] => c
    end
  else
    set_lines c (cached_lines_queue c ++ [line_id]) ({[line_id]} ∪ cached_lines_set c).


(** Penalties as the specification wants them: none is negative. *)
Fixpoint penalties_nonneg (m : MemoryModel) : Prop :=
  match m with
  | RamModel access_penalty _ => 0 ≤ access_penalty
  | CacheModel c next_memory => 0 ≤ hit_penalty c ∧ penalties_nonneg next_memory
  end.

(** ** Concrete inputs *)

Definition two_level : result MemoryModel :=
  CacheModel_init 1 1 1 (RamModel_init 100).

(** A source whose draws are those of the list, then zero. *)
Definition draws (l : list Z) : Random :=
  mkRandom (λ i, nth i l 0) 0.

Definition constant_trials (k : nat) (x : Z) : list (result Qc) :=
  replicate k (Ok (Qc_of_Z x)).

Definition small_cache : result MemoryModel :=
  CacheModel_init 2 64 1 (RamModel_init 100).

Definition oscillating : list Qc :=
  [Qc_of_Z 0; Qc_of_Z 10; Qc_of_Z 0; Qc_of_Z 10].

(** ** The sweep over the strides *)

(** [list(generate_strides_sequence(min_stride, max_stride))], with the
    local [stride] starting at [min_stride]; [None] when [fuel] turns did
    not end the loop. *)
Fixpoint generate_strides_sequence (fuel : nat) (stride max_stride : Z)
    : option (list Z) :=
  if stride <=? max_stride then
    match fuel with
    | O => None
    | S fuel' =>
        match generate_strides_sequence fuel' (stride * 2) max_stride with
        | None => None
        | Some rest => Some (stride :: rest)
        end
    end
  else Some [].

Section sweep.
Context {num : Type} {Hnum : PyNum num}.
Context {G : Type}.
Variable make_memory_model : result MemoryModel.
Variable generate_addresses : Z → G → result (list Z) * G.

(** The loop of [mean] over the generator [get_penalties], which runs a
    trial only when [mean] asks for the next item: the outcome, and the
    state of the random source when [mean] ends. *)
Fixpoint mean_of_penalties (stride : Z) (eps : num) (n_expected_successes : Z)
    (max_retries : nat) (st : mean_state num) (g : G) : mean_outcome num * G :=
  match max_retries with
  | O => (if ms_n st =? 0 then Failed AssertionError
          else Exhausted (ms_n st) (ms_mean st), g)
  | S k =>
      match generate_addresses stride g with
      | (Raise e, g') => (Failed e, g')
      | (Ok addresses, g') =>
          match trial make_memory_model addresses with
          | Raise e => (Failed e, g')
          | Ok x =>
              match mean_step eps n_expected_successes st x with
              | Next st' =>
                  mean_of_penalties stride eps n_expected_successes k st' g'
              | Return n cur_mean => (Converged n cur_mean, g')
              | Abort e => (Failed e, g')
              end
          end
      end
  end.

(** [run_strided_experiment], with the state in which it leaves the random
    source. *)
Definition run_strided_experiment_from (stride : Z) (max_retries : Z) (g : G)
    : result num * G :=
  match mean_of_penalties stride (num_of_int 1) default_n_expected_successes
          (Z.to_nat max_retries) mean_init g with
  | (Converged _ cur_mean, g') => (Ok cur_mean, g')
  | (Exhausted _ last_mean, g') => (Ok last_mean, g')
  | (Failed e, g') => (Raise e, g')
  end.

(** The loop of [run_strided_experiments] over the strides left, with the
    list [results] so far: the arguments of the calls of [print_results] in
    order, how the loop ends, and the state of the random source. *)
Fixpoint experiments_loop (strides : list Z) (max_retries : Z)
    (results : list (Z * num)) (g : G)
    : list (list (Z * num)) * result () * G :=
  match strides with
  | [] => ([], Ok (), g)
  | stride :: rest =>
      match run_strided_experiment_from stride max_retries g with
      | (Raise e, g') => ([], Raise e, g')
      | (Ok r, g') =>
          let results' := results ++ [(stride, r)] in
          let '(printed, out, g'') :=
            experiments_loop rest max_retries results' g' in
          (results' :: printed, out, g'')
      end
  end.

(** [run_strided_experiments]; [None] when [fuel] turns did not end the
    loop that makes the strides. *)
Definition run_strided_experiments (fuel : nat) (min_stride max_stride : Z)
    (max_retries : Z) (g : G)
    : option (list (list (Z * num)) * result () * G) :=
  match generate_strides_sequence fuel min_stride max_stride with
  | None => None
  | Some strides => Some (experiments_loop strides max_retries [] g)
  end.
End sweep.

(** The call at the end of the module. *)
Definition main {num : Type} {Hnum : PyNum num} (fuel : nat) (g : Random)
    : option (list (list (Z * num)) * result () * Random) :=
  run_strided_experiments create_memory_models generate_directed_strided_addresses
    fuel 16 (16 * KB) MAX_TRIALS g.

(** ** More vocabulary for the statements *)

(** The penalties of a hierarchy: the [hit_penalty] of each cache level,
    root first, then the [access_penalty] of the terminal store. *)
Fixpoint penalties (m : MemoryModel) : list Z :=
  match m with
  | RamModel access_penalty _ => [access_penalty]
  | CacheModel c next_memory => hit_penalty c :: penalties next_memory
  end.

(** The line of [address] in a level of the given [line_size]. *)
Definition line_of (line_size address : Z) : Z := address / line_size.

(** A small hierarchy with a cache line of 128 bytes. *)
Definition toy_cache : result MemoryModel :=
  CacheModel_init 2 128 1 (RamModel_init 100).

(** A generator that always gives the same two addresses. *)
Definition two_addresses (stride : Z) (g : ()) : result (list Z) * () :=
  (Ok [0; stride], g).

(** ** Adding a line keeps the invariants *)

Lemma add_to_cache_fifo c line_id :
  level_wf c → _add_to_cache c line_id = Ok (fifo_insert c line_id).
Proof.
  intros (Hn & _ & Hnd & Hset). unfold _add_to_cache, fifo_insert.
  destruct (decide (line_id ∈ cached_lines_set c)) as [|Hout]; [done|].
  destruct (Z.of_nat (length (cached_lines_queue c)) =? n_lines c) eqn:Hfull; [|done].
  destruct (cached_lines_queue c) as [|oldest rest] eqn:Hq.
  - apply Z.eqb_eq in Hfull. simpl in Hfull. lia.
  - cbn. unfold set_remove.
    destruct (decide (oldest ∈ cached_lines_set c)) as [|Hno]; [done|].
    exfalso. apply Hno. set_solver.
Qed.

Lemma fifo_insert_config c line_id :
  n_lines (fifo_insert c line_id) = n_lines c ∧
  line_size (fifo_insert c line_id) = line_size c ∧
  hit_penalty (fifo_insert c line_id) = hit_penalty c ∧
  total_penalty (fifo_insert c line_id) = total_penalty c.
Proof.
  unfold fifo_insert. repeat case_decide; try done.
  destruct (_ =? _); [destruct (cached_lines_queue c)|]; done.
Qed.

Lemma fifo_insert_wf c line_id : level_wf c → level_wf (fifo_insert c line_id).
Proof.
  intros (Hn & Hl & Hnd & Hset). unfold fifo_insert.
  destruct (decide (line_id ∈ cached_lines_set c)) as [|Hout]; [done|].
  destruct (Z.of_nat (length (cached_lines_queue c)) =? n_lines c).
  - destruct (cached_lines_queue c) as [|oldest rest] eqn:Hq; [unfold level_wf; by rewrite Hq|].
    apply NoDup_cons in Hnd as [Hfront Hnd].
    unfold level_wf; simpl. split_and!; [done..| |].
    + apply NoDup_app. split_and!; [done| |apply NoDup_singleton].
      intros x Hx ->%list_elem_of_singleton. apply Hout. rewrite Hset. set_solver.
    + rewrite Hset. set_solver.
  - unfold level_wf; simpl. split_and!; [done..| |].
    + apply NoDup_app. split_and!; [done| |apply NoDup_singleton].
      intros x Hx ->%list_elem_of_singleton. apply Hout. rewrite Hset. set_solver.
    + rewrite Hset. set_solver.
Qed.

Lemma fifo_insert_bound c line_id :
  0 < n_lines c →
  Z.of_nat (length (cached_lines_queue c)) ≤ n_lines c →
  Z.of_nat (length (cached_lines_queue (fifo_insert c line_id))) ≤ n_lines c.
Proof.
  intros Hpos Hle. unfold fifo_insert.
  destruct (decide (line_id ∈ cached_lines_set c)); [done|].
  destruct (Z.of_nat (length (cached_lines_queue c)) =? n_lines c) eqn:Hfull.
  - apply Z.eqb_eq in Hfull.
    destruct (cached_lines_queue c) as [|oldest rest] eqn:Hq; [rewrite Hq; simpl; lia|].
    simpl in *. rewrite length_app. simpl. lia.
  - apply Z.eqb_neq in Hfull. simpl. rewrite length_app. simpl. lia.
Qed.

(** ** One access, level by level *)

Lemma perform_access_cases c next_memory address :
  level_wf c →
  perform_access (CacheModel c next_memory) address =
    if decide (address / line_size c ∈ cached_lines_set c) then
      Ok (CacheModel (add_penalty c (hit_penalty c)) next_memory)
    else
      next' ← perform_access next_memory address;
      Ok (CacheModel (fifo_insert c (address / line_size c)) next').
Proof.
  intros Hwf. pose proof Hwf as (_ & Hl & _).
  simpl. unfold floordiv. apply Z.eqb_neq in Hl. rewrite Hl. cbn.
  unfold _increment_penalties.
  destruct (decide (address / line_size c ∈ cached_lines_set c)) as [Hin|Hout]; cbn.
  - unfold _add_to_cache. simpl. by rewrite decide_True.
  - destruct (perform_access next_memory address) as [next'|e]; cbn; [|done].
    by rewrite add_to_cache_fifo.
Qed.

Lemma add_penalty_wf c p : level_wf c → level_wf (add_penalty c p).
Proof. by intros (? & ? & ? & ?). Qed.

Lemma perform_access_wf m address :
  all_levels level_wf m →
  ∃ m', perform_access m address = Ok m' ∧ all_levels level_wf m'.
Proof.
  induction m as [p t|c next_memory IH]; intros Hall.
  - eexists. split; [reflexivity|done].
  - destruct Hall as [Hwf Hnext]. rewrite perform_access_cases; [|done].
    case_decide.
    + eexists. split; [reflexivity|]. split; [by apply add_penalty_wf|done].
    + destruct (IH Hnext) as (next' & -> & Hnext'). cbn.
      eexists. split; [reflexivity|]. split; [by apply fifo_insert_wf|done].
Qed.


Lemma perform_access_nonneg m address m' :
  all_levels level_wf m → penalties_nonneg m →
  perform_access m address = Ok m' →
  penalties_nonneg m' ∧ get_total_penalty m ≤ get_total_penalty m'.
Proof.
  revert m'. induction m as [p t|c next_memory IH]; intros m' Hall Hp Hstep.
  - inversion Hstep; subst. simpl in *. lia.
  - destruct Hall as [Hwf Hnext], Hp as [Hhit Hpnext].
    rewrite perform_access_cases in Hstep; [|done].
    case_decide.
    + inversion Hstep; subst. simpl. split; [done|lia].
    + destruct (perform_access next_memory address) as [next'|e] eqn:Hn; [|done].
      cbn in Hstep. inversion Hstep; subst.
      destruct (IH next' Hnext Hpnext eq_refl) as [Hp' Hle].
      destruct (fifo_insert_config c (address / line_size c)) as (_ & _ & Hh & Ht).
      simpl. rewrite Hh, Ht. split; [done|lia].
Qed.

(** ** Sequences of accesses *)

Lemma access_all_app m addresses1 addresses2 :
  access_all m (addresses1 ++ addresses2) =
  m' ← access_all m addresses1; access_all m' addresses2.
Proof.
  revert m. induction addresses1 as [|a l IH]; intros m; [done|].
  simpl. destruct (perform_access m a) as [m1|e]; cbn; [apply IH|done].
Qed.

Lemma access_all_wf m addresses :
  all_levels level_wf m →
  ∃ m', access_all m addresses = Ok m' ∧ all_levels level_wf m'.
Proof.
  revert m. induction addresses as [|a l IH]; intros m Hall.
  - by exists m.
  - destruct (perform_access_wf m a Hall) as (m1 & Hstep & Hall1).
    simpl. rewrite Hstep. cbn. by apply IH.
Qed.


Lemma access_all_nonneg m addresses m' :
  all_levels level_wf m → penalties_nonneg m →
  access_all m addresses = Ok m' →
  penalties_nonneg m' ∧ get_total_penalty m ≤ get_total_penalty m'.
Proof.
  revert m. induction addresses as [|a l IH]; intros m Hall Hp Hrun.
  - inversion Hrun; subst. split; [done|lia].
  - destruct (perform_access_wf m a Hall) as (m1 & Hstep & Hall1).
    simpl in Hrun. rewrite Hstep in Hrun. cbn in Hrun.
    destruct (perform_access_nonneg m a m1 Hall Hp Hstep) as [Hp1 Hle1].
    destruct (IH m1 Hall1 Hp1 Hrun) as [Hp' Hle']. split; [done|lia].
Qed.

(** ** Fresh hierarchies *)

Lemma CacheModel_init_Ok n l h next_memory m :
  CacheModel_init n l h next_memory = Ok m →
  n ≠ 0 ∧ l ≠ 0 ∧ m = CacheModel (mkCacheLevel n l h [] ∅ 0) next_memory.
Proof.
  unfold CacheModel_init.
  destruct (n =? 0) eqn:Hn; [done|]. destruct (l =? 0) eqn:Hl; [done|].
  apply Z.eqb_neq in Hn, Hl. intros [= <-]. done.
Qed.

Lemma fresh_wf m : fresh m → all_levels level_wf m.
Proof.
  induction 1 as [p|n l h next_memory m _ IH Hinit]; [done|].
  apply CacheModel_init_Ok in Hinit as (Hn & Hl & ->).
  split; [|done]. unfold level_wf; simpl. split_and!; [done..|apply NoDup_nil_2|done].
Qed.


(** The hierarchy of the experiments is one the statements below speak
    of. *)
Lemma create_memory_models_fresh :
  ∃ m, create_memory_models = Ok m ∧ fresh m ∧
       all_levels (λ c, 0 < n_lines c) m ∧ penalties_nonneg m.
Proof.
  eexists. split; [reflexivity|]. split_and!.
  - eapply (fresh_cache KB 128 1); [|reflexivity].
    eapply (fresh_cache (12 * KB) KB 10000); [|reflexivity].
    eapply (fresh_cache (3 * KB) (8 * KB) 10000); [|reflexivity].
    apply fresh_ram.
  - simpl. by split_and!.
  - simpl. by split_and!.
Qed.



Lemma all_levels_elem (P : CacheLevel → Prop) m c :
  all_levels P m → c ∈ levels m → P c.
Proof.
  induction m as [|c' next_memory IH]; simpl.
  - intros _ Hin. by apply not_elem_of_nil in Hin.
  - intros [Hc' Hnext] [->|Hin]%elem_of_cons; [done|by apply IH].
Qed.


(** ** The eviction policy *)

(** C1. Eviction is insertion-order FIFO.  On a level in a state that the
    constructor and accesses produce ([level_wf]): adding a resident line
    changes nothing, so its place in the queue is kept; a line that is not
    resident, added to a queue of exactly [n_lines] entries, removes the
    front entry from queue and set, then goes to the back of the queue and
    into the set; below capacity it is only appended.  With capacity 2
    and distinct lines [A], [B], [C], the accesses [A, B, A] leave the queue
    [A, B], and the access to [C] then leaves [B, C]: [A] is evicted. *)
Theorem fifo_eviction (m0 m : MemoryModel) (addresses : list Z)
    (c : CacheLevel) (line_id A B C hit p : Z) :
  fresh m0 → access_all m0 addresses = Ok m → c ∈ levels m →
  A ≠ B → A ≠ C → B ≠ C →
  (line_id ∈ cached_lines_set c → _add_to_cache c line_id = Ok c) ∧
  (line_id ∉ cached_lines_set c →
   Z.of_nat (length (cached_lines_queue c)) = n_lines c →
   ∃ oldest rest,
     cached_lines_queue c = oldest :: rest ∧
     _add_to_cache c line_id =
       Ok (set_lines c (rest ++ [line_id])
             ({[line_id]} ∪ (cached_lines_set c ∖ {[oldest]})))) ∧
  (line_id ∉ cached_lines_set c →
   Z.of_nat (length (cached_lines_queue c)) ≠ n_lines c →
   _add_to_cache c line_id =
     Ok (set_lines c (cached_lines_queue c ++ [line_id])
           ({[line_id]} ∪ cached_lines_set c))) ∧
  (∃ m3 c3 next3 c4 next4,
     CacheModel_init 2 1 hit (RamModel_init p) ≫= (λ m, access_all m [A; B; A])
       = Ok m3 ∧
     m3 = CacheModel c3 next3 ∧
     cached_lines_queue c3 = [A; B] ∧
     perform_access m3 C = Ok (CacheModel c4 next4) ∧
     cached_lines_queue c4 = [B; C] ∧
     (A ∉ cached_lines_set c4) ∧ B ∈ cached_lines_set c4 ∧ C ∈ cached_lines_set c4).
Proof.
  intros Hfresh Hrun Hc HAB HAC HBC.
  assert (level_wf c) as Hwf.
  { destruct (access_all_wf m0 addresses (fresh_wf m0 Hfresh)) as (m' & Hrun' & Hall).
    rewrite Hrun in Hrun'. injection Hrun' as <-.
    by apply (all_levels_elem level_wf m). }
  pose proof (add_to_cache_fifo c line_id Hwf) as Hadd.
  unfold fifo_insert in Hadd. split_and!.
  - intros Hin. by rewrite decide_True in Hadd.
  - intros Hout Hfull. rewrite decide_False in Hadd by done.
    apply Z.eqb_eq in Hfull. rewrite Hfull in Hadd.
    destruct (cached_lines_queue c) as [|oldest rest] eqn:Hq.
    + apply Z.eqb_eq in Hfull. destruct Hwf as (Hn & _). simpl in Hfull. lia.
    + by exists oldest, rest.
  - intros Hout Hfull. rewrite decide_False in Hadd by done.
    apply Z.eqb_neq in Hfull. by rewrite Hfull in Hadd.
  - assert (∀ q s t, NoDup q → s = list_to_set q →
              level_wf (mkCacheLevel 2 1 hit q s t)) as Hlevel.
    { intros q s t Hnd Hs. unfold level_wf; simpl. split_and!; [lia|lia|done..]. }
    set (c0 := mkCacheLevel 2 1 hit [] ∅ 0).
    set (c1 := mkCacheLevel 2 1 hit [A] ({[A]} ∪ ∅) 0).
    set (c2 := mkCacheLevel 2 1 hit [A; B] ({[B]} ∪ ({[A]} ∪ ∅)) 0).
    set (c3 := mkCacheLevel 2 1 hit [A; B] ({[B]} ∪ ({[A]} ∪ ∅)) (0 + hit)).
    set (c4 := mkCacheLevel 2 1 hit [B; C]
                 ({[C]} ∪ ({[B]} ∪ ({[A]} ∪ ∅)) ∖ {[A]}) (0 + hit)).
    assert (level_wf c0) as Hwf0 by (apply Hlevel; [apply NoDup_nil_2|done]).
    assert (level_wf c1) as Hwf1.
    { apply Hlevel; [apply NoDup_singleton|set_solver]. }
    assert (level_wf c2) as Hwf2.
    { apply Hlevel; [|set_solver].
      apply NoDup_cons. split; [set_solver|apply NoDup_singleton]. }
    assert (level_wf c3) as Hwf3 by (by apply (add_penalty_wf c2 hit)).
    assert (perform_access (CacheModel c0 (RamModel p 0)) A
            = Ok (CacheModel c1 (RamModel p (0 + p)))) as H1.
    { rewrite perform_access_cases by done. simpl line_size. rewrite Z.div_1_r.
      rewrite decide_False by set_solver. reflexivity. }
    assert (perform_access (CacheModel c1 (RamModel p (0 + p))) B
            = Ok (CacheModel c2 (RamModel p (0 + p + p)))) as H2.
    { rewrite perform_access_cases by done. simpl line_size. rewrite Z.div_1_r.
      rewrite decide_False by set_solver. cbn. unfold fifo_insert.
      rewrite decide_False by set_solver. reflexivity. }
    assert (perform_access (CacheModel c2 (RamModel p (0 + p + p))) A
            = Ok (CacheModel c3 (RamModel p (0 + p + p)))) as H3.
    { rewrite perform_access_cases by done. simpl line_size. rewrite Z.div_1_r.
      rewrite decide_True by set_solver. reflexivity. }
    assert (perform_access (CacheModel c3 (RamModel p (0 + p + p))) C
            = Ok (CacheModel c4 (RamModel p (0 + p + p + p)))) as H4.
    { rewrite perform_access_cases by done. simpl line_size. rewrite Z.div_1_r.
      rewrite decide_False by set_solver. cbn. unfold fifo_insert.
      rewrite decide_False by set_solver. reflexivity. }
    exists (CacheModel c3 (RamModel p (0 + p + p))), c3, (RamModel p (0 + p + p)),
      c4, (RamModel p (0 + p + p + p)).
    split_and!; [|done|done|exact H4|done|set_solver..].
    change (CacheModel_init 2 1 hit (RamModel_init p))
      with (Ok (CacheModel c0 (RamModel p 0))).
    cbn [mbind result_bind access_all]. rewrite H1. cbn [mbind result_bind].
    rewrite H2. cbn [mbind result_bind]. by rewrite H3.
Qed.

Lemma fifo_eviction_witness :
  ∃ m0 m c, small_cache = Ok m0 ∧ access_all m0 [640; 1300] = Ok m ∧
    levels m = [c] ∧ cached_lines_queue c = [10; 20] ∧
    _add_to_cache c 10 = Ok c ∧
    ∃ oldest rest,
      cached_lines_queue c = oldest :: rest ∧
      _add_to_cache c 30 =
        Ok (set_lines c (rest ++ [30])
              ({[30]} ∪ (cached_lines_set c ∖ {[oldest]}))).
Proof.
  assert (∃ m0, small_cache = Ok m0 ∧ fresh m0) as (m0 & Hm0 & Hfresh).
  { eexists. split; [reflexivity|].
    apply (fresh_cache 2 64 1 (RamModel_init 100)); [apply fresh_ram|reflexivity]. }
  destruct (access_all_wf m0 [640; 1300] (fresh_wf m0 Hfresh)) as (m & Hrun & Hall).
  assert ((m0 ← small_cache; m ← access_all m0 [640; 1300];
           Ok ((λ c, (cached_lines_queue c, n_lines c)) <$> levels m))
          = Ok [([10; 20], 2)]) as Hshape by (vm_compute; reflexivity).
  rewrite Hm0 in Hshape. cbn [mbind result_bind] in Hshape.
  rewrite Hrun in Hshape. cbn [mbind result_bind] in Hshape.
  injection Hshape as Hshape.
  destruct (levels m) as [|c [|c' l]] eqn:Hlev; [done| |done].
  injection Hshape as Hq Hn.
  assert (c ∈ levels m) as Hc by (rewrite Hlev; set_solver).
  destruct (all_levels_elem level_wf m c Hall Hc) as (_ & _ & _ & Hset).
  rewrite Hq in Hset.
  exists m0, m, c. split_and!; [done..| |].
  - apply (fifo_eviction m0 m [640; 1300] c 10 1 2 3 1 100 Hfresh Hrun Hc);
      [lia|lia|lia|]. rewrite Hset. set_solver.
  - apply (fifo_eviction m0 m [640; 1300] c 30 1 2 3 1 100 Hfresh Hrun Hc);
      [lia|lia|lia| |by rewrite Hq, Hn]. rewrite Hset. set_solver.
Defined.

(** ** The invariant of the data model *)


Lemma two_level_fresh :
  ∃ m, two_level = Ok m ∧ fresh m ∧ all_levels (λ c, 0 < n_lines c) m.
Proof.
  eexists. split; [reflexivity|]. split.
  - apply (fresh_cache 1 1 1 (RamModel_init 100)); [apply fresh_ram|reflexivity].
  - simpl. split; [lia|done].
Defined.



(** ** The end-to-end scenario *)

(** C6. A cache level with [n_lines=1], [line_size=1], [hit_penalty=1] over
    a terminal store with [access_penalty=100], fed the addresses
    [0, 0, 1, 0], reports a total penalty of 301; the totals after one, two
    and three of the accesses are 100, 101 and 201. *)
Theorem two_level_scenario :
  two_level ≫= (λ m, perform_accesses m [0; 0; 1; 0]) = Ok 301 ∧
  two_level ≫= (λ m, perform_accesses m [0]) = Ok 100 ∧
  two_level ≫= (λ m, perform_accesses m [0; 0]) = Ok 101 ∧
  two_level ≫= (λ m, perform_accesses m [0; 0; 1]) = Ok 201.
Proof. split_and!; vm_compute; reflexivity. Qed.

(** ** Results on the trial runner *)

(** A trial on no address divides by zero, and so does the experiment
    whose generator gives no address at the first trial. *)
Lemma trial_empty {num : Type} {Hnum : PyNum num} (m : MemoryModel) :
  trial (num := num) (Ok m) [] = Raise ZeroDivisionError.
Proof. unfold trial, perform_accesses. cbn. apply int_truediv_zero. Qed.

Lemma run_strided_experiment_empty {num : Type} {Hnum : PyNum num} {G : Type}
    (m : MemoryModel) (generate_addresses : Z → G → result (list Z) * G)
    (stride max_retries : Z) (g g' : G) :
  generate_addresses stride g = (Ok [], g') → 0 < max_retries →
  run_strided_experiment (num := num) (Ok m) generate_addresses stride
    max_retries g = Raise ZeroDivisionError.
Proof.
  intros Hgen Hpos. unfold run_strided_experiment, mean, mean_run.
  destruct (Z.to_nat max_retries) as [|k] eqn:Hk; [lia|].
  cbn [get_penalties]. by rewrite Hgen, trial_empty.
Qed.



(** ** Monotonicity *)

Lemma access_all_ram p t addresses :
  access_all (RamModel p t) addresses
  = Ok (RamModel p (t + Z.of_nat (length addresses) * p)).
Proof.
  revert t. induction addresses as [|a l IH]; intros t.
  - simpl. do 2 f_equal. lia.
  - cbn. rewrite IH. do 2 f_equal. simpl length. lia.
Qed.

(** C8. When no [hit_penalty] and no [access_penalty] of a hierarchy is
    negative, then after any sequence of accesses one more access returns
    and does not decrease [get_total_penalty] of the root; and a terminal
    store alone, with [access_penalty = p], has a total of exactly [n * p]
    after [n] accesses. *)
Theorem penalty_monotone (m : MemoryModel) (addresses : list Z) (address p : Z) :
  fresh m → penalties_nonneg m →
  (∃ m1 m2, access_all m addresses = Ok m1 ∧
     perform_access m1 address = Ok m2 ∧
     access_all m (addresses ++ [address]) = Ok m2 ∧
     get_total_penalty m1 ≤ get_total_penalty m2) ∧
  (∃ r, access_all (RamModel_init p) addresses = Ok r ∧
     get_total_penalty r = Z.of_nat (length addresses) * p).
Proof.
  intros Hfresh Hp. split.
  - destruct (access_all_wf m addresses (fresh_wf m Hfresh)) as (m1 & Hrun & Hwf1).
    destruct (perform_access_wf m1 address Hwf1) as (m2 & Hstep & _).
    destruct (access_all_nonneg m addresses m1 (fresh_wf m Hfresh) Hp Hrun) as [Hp1 _].
    destruct (perform_access_nonneg m1 address m2 Hwf1 Hp1 Hstep) as [_ Hle].
    exists m1, m2. split_and!; [done..| |done].
    rewrite access_all_app, Hrun. cbn. by rewrite Hstep.
  - eexists. split; [apply access_all_ram|]. simpl. lia.
Qed.

Lemma penalty_monotone_witness :
  ∃ m m1 m2, two_level = Ok m ∧ access_all m [0; 0; 1] = Ok m1 ∧
    perform_access m1 0 = Ok m2 ∧
    get_total_penalty m1 ≤ get_total_penalty m2.
Proof.
  destruct two_level_fresh as (m & Hm & Hfresh & _).
  assert (penalties_nonneg m) as Hp.
  { injection Hm as <-. simpl. lia. }
  destruct (penalty_monotone m [0; 0; 1] 0 100 Hfresh Hp)
    as ((m1 & m2 & Hrun & Hstep & _ & Hle) & _).
  by exists m, m1, m2.
Defined.

(** ** Results on the convergence estimator *)

Section estimator_facts.
Context {num : Type} {Hnum : PyNum num}.
Implicit Types (eps x : num) (st : mean_state num) (data : list (result num)).
Implicit Types (xs pre rest : list num).

(** Once a turn has failed, the counter of successes stays below the number
    of items taken, so a return inside the loop comes after more than
    [n_expected_successes] items. *)
Lemma mean_loop_late eps n_expected_successes st data k v :
  0 ≤ ms_n_successes st < ms_n st →
  mean_loop eps n_expected_successes st data = Converged k v →
  n_expected_successes + 1 ≤ k.
Proof.
  revert st. induction data as [|[x|e] rest IH]; intros st Hst; simpl.
  - by destruct (ms_n st =? 0).
  - unfold mean_step.
    destruct (truediv (num_add (ms_sum st) x) (ms_n st + 1)) as [cur_mean|e]; [|done].
    destruct (num_lt _ eps).
    + destruct (ms_n_successes st + 1 <? n_expected_successes) eqn:Hlt.
      * apply IH. simpl. lia.
      * apply Z.ltb_ge in Hlt. intros [= <- <-]. lia.
    + apply IH. simpl. lia.
  - done.
Qed.

Lemma num_sum_snoc pre x : num_sum (pre ++ [x]) = num_add (num_sum pre) x.
Proof. unfold num_sum. by rewrite foldl_app. Qed.

(** The locals of [mean] after the items [pre] have been taken, and how the
    loop ends from there on the values [rest]: an exception is the failed
    assertion on an empty stream, or one that a division [sum / n]
    raised. *)
Lemma mean_loop_values eps n_expected_successes rest pre st :
  ms_n st = Z.of_nat (length pre) →
  ms_sum st = num_sum pre →
  (pre ≠ [] → truediv (num_sum pre) (Z.of_nat (length pre)) = Ok (ms_mean st)) →
  match mean_loop eps n_expected_successes st (Ok <$> rest) with
  | Failed e =>
      (e = AssertionError ∧ pre ++ rest = []) ∨
      ∃ j, (1 ≤ j ≤ length rest)%nat ∧
           truediv (num_sum (pre ++ take j rest)) (Z.of_nat (length pre + j))
             = Raise e
  | Exhausted k v =>
      pre ++ rest ≠ [] ∧ k = Z.of_nat (length (pre ++ rest)) ∧
      truediv (num_sum (pre ++ rest)) k = Ok v
  | Converged k v =>
      ∃ j, (1 ≤ j ≤ length rest)%nat ∧ k = Z.of_nat (length pre + j) ∧
           truediv (num_sum (pre ++ take j rest)) k = Ok v
  end.
Proof.
  revert pre st. induction rest as [|x rest IH]; intros pre st Hn Hsum Hmean.
  - simpl. rewrite app_nil_r. destruct (ms_n st =? 0) eqn:H0.
    + apply Z.eqb_eq in H0. left. split; [done|].
      destruct pre; [done|simpl in *; lia].
    + apply Z.eqb_neq in H0.
      assert (pre ≠ []) as Hne by (intros ->; simpl in *; lia).
      split; [done|]. split; [done|]. rewrite Hn. by apply Hmean.
  - cbn [fmap list_fmap mean_loop]. unfold mean_step.
    assert (ms_n st + 1 = Z.of_nat (length (pre ++ [x]))) as Hn'.
    { rewrite length_app. simpl. lia. }
    assert (num_add (ms_sum st) x = num_sum (pre ++ [x])) as Hsum'.
    { by rewrite num_sum_snoc, Hsum. }
    assert (pre ++ take 1 (x :: rest) = pre ++ [x]) as Htake1 by done.
    assert (Z.of_nat (length pre + 1) = ms_n st + 1) as Hn1 by lia.
    destruct (truediv (num_add (ms_sum st) x) (ms_n st + 1))
      as [cur_mean|e] eqn:Hdiv.
    2:{ right. exists 1%nat. split; [simpl; lia|].
        by rewrite Htake1, Hn1, <- Hsum'. }
    assert (truediv (num_sum (pre ++ [x])) (Z.of_nat (length (pre ++ [x])))
            = Ok cur_mean) as Hcur.
    { by rewrite <- Hsum', <- Hn'. }
    assert (∀ s, match mean_loop eps n_expected_successes
                         (mkMeanState (ms_n st + 1) (num_add (ms_sum st) x)
                            cur_mean s)
                         (Ok <$> rest) with
                 | Failed e =>
                     (e = AssertionError ∧ pre ++ x :: rest = []) ∨
                     ∃ j, (1 ≤ j ≤ length (x :: rest))%nat ∧
                          truediv (num_sum (pre ++ take j (x :: rest)))
                            (Z.of_nat (length pre + j)) = Raise e
                 | Exhausted k v =>
                     pre ++ x :: rest ≠ [] ∧
                     k = Z.of_nat (length (pre ++ x :: rest)) ∧
                     truediv (num_sum (pre ++ x :: rest)) k = Ok v
                 | Converged k v =>
                     ∃ j, (1 ≤ j ≤ length (x :: rest))%nat ∧
                          k = Z.of_nat (length pre + j) ∧
                          truediv (num_sum (pre ++ take j (x :: rest))) k = Ok v
                 end) as Hnext.
    { intros s.
      pose proof (IH (pre ++ [x])
                    (mkMeanState (ms_n st + 1) (num_add (ms_sum st) x) cur_mean s)
                    Hn' Hsum' (λ _, Hcur)) as Hrec.
      destruct (mean_loop _ _ _ _) as [k v|k v|e].
      - destruct Hrec as (j & Hj & -> & Hv). exists (S j).
        rewrite <- app_assoc in Hv.
        split; [simpl; lia|]. split; [rewrite length_app; simpl; lia|done].
      - by rewrite <- app_assoc in Hrec.
      - destruct Hrec as [[_ Hnil]|(j & Hj & Hraise)].
        + by destruct pre.
        + right. exists (S j). split; [simpl; lia|].
          rewrite <- app_assoc, length_app in Hraise.
          replace (Z.of_nat (length pre + S j))
            with (Z.of_nat (length pre + length [x] + j)) by (simpl; lia).
          done. }
    destruct (num_lt _ eps); [|apply Hnext].
    destruct (ms_n_successes st + 1 <? n_expected_successes); [apply Hnext|].
    exists 1%nat. split; [simpl; lia|]. split; [lia|].
    by rewrite Htake1, <- Hsum'.
Qed.

Lemma mean_run_values eps n_expected_successes xs :
  match mean_run (Ok <$> xs) eps n_expected_successes with
  | Failed e =>
      (e = AssertionError ∧ xs = []) ∨
      ∃ j, (1 ≤ j ≤ length xs)%nat ∧
           truediv (num_sum (take j xs)) (Z.of_nat j) = Raise e
  | Exhausted k v =>
      xs ≠ [] ∧ k = Z.of_nat (length xs) ∧ truediv (num_sum xs) k = Ok v
  | Converged k v =>
      ∃ j, (1 ≤ j ≤ length xs)%nat ∧ k = Z.of_nat j ∧
           truediv (num_sum (take j xs)) k = Ok v
  end.
Proof.
  exact (mean_loop_values eps n_expected_successes xs [] mean_init
           eq_refl eq_refl (λ H, False_ind _ (H eq_refl))).
Qed.
End estimator_facts.

(** C5. On a stream of values, whatever the arithmetic: [mean] raises its
    assertion on the empty stream, and nothing else unless one of its
    divisions [sum / n] raises; so when these divisions return, as a float
    divided by a positive count does, [mean] raises exactly when the stream
    is empty.  A call that reaches the end of the stream, the counter of
    successes never having reached the threshold, returns the last
    [cur_mean] assigned: [sum / n], for the sum (added from the left) and
    the number of all the items. *)
Theorem mean_exhausted {num : Type} {Hnum : PyNum num} (xs : list num)
    (eps : num) (n_expected_successes : Z) :
  (xs = [] →
   mean (Ok <$> xs) eps n_expected_successes = Raise AssertionError) ∧
  (∀ e, mean (Ok <$> xs) eps n_expected_successes = Raise e →
        (xs = [] ∧ e = AssertionError) ∨
        ∃ j, (1 ≤ j ≤ length xs)%nat ∧
             truediv (num_sum (take j xs)) (Z.of_nat j) = Raise e) ∧
  ((∀ j, (1 ≤ j ≤ length xs)%nat →
         ∃ v, truediv (num_sum (take j xs)) (Z.of_nat j) = Ok v) →
   (∀ e, mean (Ok <$> xs) eps n_expected_successes = Raise e
         ↔ xs = [] ∧ e = AssertionError) ∧
   (xs ≠ [] →
    (∀ k v, mean_run (Ok <$> xs) eps n_expected_successes ≠ Converged k v) →
    ∃ v, truediv (num_sum xs) (Z.of_nat (length xs)) = Ok v ∧
         mean_run (Ok <$> xs) eps n_expected_successes
           = Exhausted (Z.of_nat (length xs)) v ∧
         mean (Ok <$> xs) eps n_expected_successes = Ok v)) ∧
  (∀ k v, mean_run (Ok <$> xs) eps n_expected_successes = Exhausted k v →
          mean (Ok <$> xs) eps n_expected_successes = Ok v ∧
          k = Z.of_nat (length xs) ∧
          truediv (num_sum xs) (Z.of_nat (length xs)) = Ok v).
Proof.
  pose proof (mean_run_values eps n_expected_successes xs) as Hrun.
  unfold mean.
  destruct (mean_run (Ok <$> xs) eps n_expected_successes) as [k v|k v|e] eqn:Hout.
  - destruct Hrun as (j & Hj & -> & Hv). split_and!.
    + intros ->. simpl in Hj. lia.
    + done.
    + intros _. split.
      * intros e. split; [done|]. intros [-> _]. simpl in Hj. lia.
      * intros _ Hnot. by destruct (Hnot (Z.of_nat j) v).
    + done.
  - destruct Hrun as (Hne & -> & Hv). split_and!.
    + done.
    + done.
    + intros _. split.
      * intros e. split; [done|]. by intros [-> _].
      * intros _ _. by exists v.
    + intros k' v' [= <- <-]. done.
  - split_and!.
    + intros ->. destruct Hrun as [[-> _]|(j & Hj & _)]; [done|].
      simpl in Hj. lia.
    + intros e' [= <-]. destruct Hrun as [[-> ->]|Hraise]; [by left|by right].
    + intros Hdiv. destruct Hrun as [[-> ->]|(j & Hj & Hraise)].
      * split; [|done]. intros e. split; [by intros [= <-]|]. by intros [_ ->].
      * destruct (Hdiv j Hj) as [v Hv]. rewrite Hv in Hraise. done.
    + done.
Qed.

Lemma truediv_nonzero a n : n ≠ 0 → truediv a n = Ok (a / Qc_of_Z n)%Qc.
Proof.
  intros Hn. cbn [truediv Qc_num]. unfold Qc_truediv.
  apply Z.eqb_neq in Hn. by rewrite Hn.
Qed.

Lemma mean_exhausted_witness :
  mean (Ok <$> oscillating) (Qc_of_Z 1) 3 = Ok (Qc_of_Z 5) ∧
  truediv (num_sum oscillating) (Z.of_nat (length oscillating)) = Ok (Qc_of_Z 5) ∧
  (∀ e, mean (Ok <$> oscillating) (Qc_of_Z 1) 3 = Raise e
        ↔ oscillating = [] ∧ e = AssertionError).
Proof.
  destruct (mean_exhausted oscillating (Qc_of_Z 1) 3) as (_ & _ & Hiff & Hlast).
  assert (mean_run (Ok <$> oscillating) (Qc_of_Z 1) 3 = Exhausted 4 (Qc_of_Z 5))
    as Hrun.
  { vm_compute. f_equal. apply Qc_is_canon. reflexivity. }
  destruct (Hlast 4 (Qc_of_Z 5) Hrun) as (Hmean & _ & Hv).
  split; [exact Hmean|]. split; [exact Hv|].
  apply Hiff. intros j Hj. eexists. apply truediv_nonzero. lia.
Defined.

(** *** The first turn, and a stream of sevens

    The results that follow are stated in the instance [Qc_num].  The
    operations of the runs they describe give the same values on floats:
    [0 + x], [x / 1] and [|0 - x|] at the first turn, and [7 k / k],
    [7 - 7] on a stream of sevens. *)

Lemma Qcltb_lt (a b : Qc) : Qcltb a b = true ↔ (a < b)%Qc.
Proof.
  unfold Qcltb. rewrite Qclt_alt. destruct (a ?= b)%Qc; split; congruence.
Qed.

Lemma Qcltb_ge (a b : Qc) : Qcltb a b = false ↔ (b ≤ a)%Qc.
Proof.
  rewrite Qcle_ngt, <- Qcltb_lt. destruct (Qcltb a b); split; congruence.
Qed.

Lemma Qc_of_Z_nonzero n : n ≠ 0 → Qc_of_Z n ≠ Qc_of_Z 0.
Proof. intros Hn Heq. by apply Z2Qc_inj in Heq. Qed.

Lemma Qcdiv_1 (x : Qc) : (x / Qc_of_Z 1)%Qc = x.
Proof. rewrite Z2Qc_inj_1. apply (right_id 1%Qc Qcdiv). Qed.

Lemma Qcabs_0_minus (x : Qc) : Qcabs (0 - x) = Qcabs x.
Proof. replace (0 - x)%Qc with (- x)%Qc by ring. apply Qcabs_opp. Qed.

Lemma Qcabs_minus_diag (x : Qc) : Qcabs (x - x) = 0%Qc.
Proof. replace (x - x)%Qc with 0%Qc by ring. by apply Qcabs_pos. Qed.

(** A turn of the loop in exact arithmetic. *)
Lemma mean_step_exact (eps : Qc) n_expected_successes (st : mean_state Qc)
    (x : Qc) :
  mean_step eps n_expected_successes st x =
    match truediv (ms_sum st + x)%Qc (ms_n st + 1) with
    | Raise e => Abort e
    | Ok cur_mean =>
        if Qcltb (Qcabs (ms_mean st - cur_mean)) eps then
          if ms_n_successes st + 1 <? n_expected_successes then
            Next (mkMeanState (ms_n st + 1) (ms_sum st + x)%Qc cur_mean
                    (ms_n_successes st + 1))
          else Return (ms_n st + 1) cur_mean
        else Next (mkMeanState (ms_n st + 1) (ms_sum st + x)%Qc cur_mean 0)
    end.
Proof. reflexivity. Qed.

(** The first turn of the loop, from the initial locals. *)
Lemma mean_step_first eps n_expected_successes x :
  mean_step eps n_expected_successes mean_init x =
    if Qcltb (Qcabs x) eps then
      if 1 <? n_expected_successes then Next (mkMeanState 1 x x 1)
      else Return 1 x
    else Next (mkMeanState 1 x x 0).
Proof.
  rewrite mean_step_exact. unfold mean_init.
  cbn [ms_n ms_sum ms_mean ms_n_successes num_of_int Qc_num].
  rewrite Z2Qc_inj_0, Qcplus_0_l, truediv_nonzero by done.
  change (0 + 1) with 1. rewrite Qcdiv_1, Qcabs_0_minus. done.
Qed.

(** C10. The baseline [mean] of the estimator is 0 before any item is
    taken, so the first running mean, the first item [x] itself, is compared
    with 0: when [|x| < eps] the first turn is a success (the counter
    becomes 1, or the call returns if one success is enough); when
    [|x| >= eps] the counter is reset, and a return inside the loop comes
    after at least [n_expected_successes + 1] items. *)
Theorem mean_first_trial (x eps : Qc) (n_expected_successes : Z)
    (rest : list (result Qc)) (k : Z) (v : Qc) :
  ms_mean mean_init = 0%Qc ∧
  ((Qcabs x < eps)%Qc →
   mean_step eps n_expected_successes mean_init x =
     if 1 <? n_expected_successes then Next (mkMeanState 1 x x 1)
     else Return 1 x) ∧
  ((eps ≤ Qcabs x)%Qc →
   mean_step eps n_expected_successes mean_init x = Next (mkMeanState 1 x x 0) ∧
   (mean_run (Ok x :: rest) eps n_expected_successes = Converged k v →
    n_expected_successes + 1 ≤ k)).
Proof.
  split; [apply Z2Qc_inj_0|]. rewrite mean_step_first. split.
  - intros Hlt%Qcltb_lt. by rewrite Hlt.
  - intros Hge%Qcltb_ge. rewrite Hge. split; [done|].
    unfold mean_run. cbn [mean_loop]. rewrite mean_step_first, Hge.
    apply mean_loop_late. simpl. lia.
Qed.

Lemma mean_first_trial_witness :
  mean_step (Qc_of_Z 8) 3 mean_init (Qc_of_Z 7)
    = Next (mkMeanState 1 (Qc_of_Z 7) (Qc_of_Z 7) 1) ∧
  mean_step (Qc_of_Z 1) 3 mean_init (Qc_of_Z 7)
    = Next (mkMeanState 1 (Qc_of_Z 7) (Qc_of_Z 7) 0) ∧
  mean_run (constant_trials 5 7) (Qc_of_Z 1) 3 = Converged 4 (Qc_of_Z 7) ∧
  3 + 1 ≤ 4.
Proof.
  assert (mean_run (constant_trials 5 7) (Qc_of_Z 1) 3 = Converged 4 (Qc_of_Z 7))
    as Hrun.
  { vm_compute. f_equal. apply Qc_is_canon. reflexivity. }
  split_and!.
  - apply (mean_first_trial (Qc_of_Z 7) (Qc_of_Z 8) 3 [] 0 (Qc_of_Z 0)).
    apply Qcltb_lt. reflexivity.
  - apply (mean_first_trial (Qc_of_Z 7) (Qc_of_Z 1) 3 [] 0 (Qc_of_Z 0)).
    apply Qcltb_ge. reflexivity.
  - exact Hrun.
  - apply (mean_first_trial (Qc_of_Z 7) (Qc_of_Z 1) 3 (constant_trials 4 7)
             4 (Qc_of_Z 7)); [|exact Hrun].
    apply Qcltb_ge. reflexivity.
Defined.

(** On a stream of sevens, once an item has been taken every further turn
    is a success; what follows the returning turn is not looked at. *)
Lemma mean_loop_sevens eps n_expected_successes (len : nat) tail (j s : Z) :
  (0 < eps)%Qc → 1 ≤ j → 0 ≤ s →
  Z.max (n_expected_successes - s) 1 ≤ Z.of_nat len →
  mean_loop eps n_expected_successes
    (mkMeanState j (Qc_of_Z (7 * j)) (Qc_of_Z 7) s) (constant_trials len 7 ++ tail)
  = Converged (j + Z.max (n_expected_successes - s) 1) (Qc_of_Z 7).
Proof.
  intros Heps. revert j s. induction len as [|len IH]; intros j s Hj Hs Hlen.
  - lia.
  - cbn [constant_trials replicate app mean_loop]. rewrite mean_step_exact.
    cbn [ms_n ms_sum ms_mean ms_n_successes].
    rewrite truediv_nonzero by lia.
    assert ((Qc_of_Z (7 * j) + Qc_of_Z 7)%Qc = Qc_of_Z (7 * (j + 1))) as ->.
    { rewrite <- Z2Qc_inj_add. f_equal. lia. }
    assert ((Qc_of_Z (7 * (j + 1)) / Qc_of_Z (j + 1))%Qc = Qc_of_Z 7) as ->.
    { rewrite Z2Qc_inj_mul. apply Qcdiv_mult_l.
      rewrite <- Z2Qc_inj_0. apply Qc_of_Z_nonzero. lia. }
    rewrite Qcabs_minus_diag.
    apply Qcltb_lt in Heps as Heps'. rewrite Heps'.
    destruct (s + 1 <? n_expected_successes) eqn:Hlt.
    + apply Z.ltb_lt in Hlt. fold (constant_trials len 7).
      rewrite IH by lia. f_equal. lia.
    + apply Z.ltb_ge in Hlt. f_equal. lia.
Qed.

(** The number of trials that [mean] takes from a stream of sevens. *)
Lemma mean_run_sevens eps n_expected_successes (len : nat) tail :
  (0 < eps)%Qc →
  Z.max n_expected_successes 1 + (if Qcltb (Qc_of_Z 7) eps then 0 else 1)
    ≤ Z.of_nat len →
  mean_run (constant_trials len 7 ++ tail) eps n_expected_successes
  = Converged
      (Z.max n_expected_successes 1 + (if Qcltb (Qc_of_Z 7) eps then 0 else 1))
      (Qc_of_Z 7).
Proof.
  intros Heps Hlen. destruct len as [|len]; [destruct (Qcltb _ _); lia|].
  unfold mean_run. cbn [constant_trials replicate app mean_loop].
  fold (constant_trials len 7).
  rewrite mean_step_first. rewrite Qcabs_pos by done.
  change (mkMeanState 1 (Qc_of_Z 7) (Qc_of_Z 7))
    with (mkMeanState 1 (Qc_of_Z (7 * 1)) (Qc_of_Z 7)).
  destruct (Qcltb (Qc_of_Z 7) eps).
  - destruct (1 <? n_expected_successes) eqn:Hlt.
    + apply Z.ltb_lt in Hlt. rewrite mean_loop_sevens by (done || lia).
      f_equal. lia.
    + apply Z.ltb_ge in Hlt. f_equal. lia.
  - rewrite mean_loop_sevens by (done || lia). f_equal. lia.
Qed.

(** C4, as the code has it. For every [eps > 0] and threshold, a stream that
    always yields 7 makes [mean] return exactly 7 from inside its loop,
    whatever follows in the stream: after [max(threshold, 1)] trials when
    [7 < eps], and after one trial more when [eps <= 7], since the first
    running mean 7 is compared with the initial baseline 0.  So the return
    comes within the threshold plus one trials (threshold at least 1). *)
Theorem mean_sevens (eps : Qc) (n_expected_successes : Z) (len : nat)
    (tail : list (result Qc)) :
  (0 < eps)%Qc →
  Z.max n_expected_successes 1 + (if Qcltb (Qc_of_Z 7) eps then 0 else 1)
    ≤ Z.of_nat len →
  ∃ k, mean_run (constant_trials len 7 ++ tail) eps n_expected_successes
         = Converged k (Qc_of_Z 7) ∧
       mean (constant_trials len 7 ++ tail) eps n_expected_successes
         = Ok (Qc_of_Z 7) ∧
       k = Z.max n_expected_successes 1
           + (if Qcltb (Qc_of_Z 7) eps then 0 else 1) ∧
       k ≤ Z.max n_expected_successes 1 + 1 ∧
       ((eps ≤ Qc_of_Z 7)%Qc → k = Z.max n_expected_successes 1 + 1) ∧
       ((Qc_of_Z 7 < eps)%Qc → k = Z.max n_expected_successes 1).
Proof.
  intros Heps Hlen.
  pose proof (mean_run_sevens eps n_expected_successes len tail Heps Hlen) as Hrun.
  eexists. split; [exact Hrun|]. split; [unfold mean; by rewrite Hrun|].
  split; [done|]. split; [destruct (Qcltb _ _); lia|]. split.
  - intros Hge%Qcltb_ge. rewrite Hge. lia.
  - intros Hlt%Qcltb_lt. rewrite Hlt. lia.
Qed.

Lemma mean_sevens_witness :
  mean_run (constant_trials 100 7 ++ [Raise ValueError]) (Qc_of_Z 1) 3
    = Converged 4 (Qc_of_Z 7) ∧
  mean_run (constant_trials 100 7) (Qc_of_Z 8) 3 = Converged 3 (Qc_of_Z 7).
Proof.
  split.
  - destruct (mean_sevens (Qc_of_Z 1) 3 100 [Raise ValueError])
      as (k & Hrun & _ & -> & _); [reflexivity|vm_compute; discriminate|].
    exact Hrun.
  - destruct (mean_sevens (Qc_of_Z 8) 3 100 [])
      as (k & Hrun & _ & -> & _); [reflexivity|vm_compute; discriminate|].
    rewrite app_nil_r in Hrun. exact Hrun.
Defined.

(** With the tolerance 1 of the experiments and the default threshold 3, the
    stream of sevens is returned from at the fourth trial, not within
    three. *)
Lemma mean_sevens_not_within_threshold :
  (0 < Qc_of_Z 1)%Qc ∧
  ¬ ∃ k v, k ≤ default_n_expected_successes ∧
      mean_run (constant_trials 100 7) (Qc_of_Z 1) default_n_expected_successes
        = Converged k v.
Proof.
  split; [reflexivity|]. intros (k & v & Hk & Hrun).
  assert (mean_run (constant_trials 100 7) (Qc_of_Z 1) default_n_expected_successes
          = Converged 4 (Qc_of_Z 7)) as H4.
  { vm_compute. f_equal. apply Qc_is_canon. reflexivity. }
  rewrite H4 in Hrun. injection Hrun as <- _.
  unfold default_n_expected_successes in Hk. lia.
Qed.

(** ** Results on the address generators *)

Lemma ARRAY_SIZE_pos : 0 < ARRAY_SIZE.
Proof. reflexivity. Qed.

(** [len(range(0, ARRAY_SIZE, stride))] counts the multiples of [stride]
    below [ARRAY_SIZE]. *)
Lemma range_len_strided stride :
  1 ≤ stride →
  ∃ n_strided, range_len 0 ARRAY_SIZE stride = Ok n_strided ∧ 1 ≤ n_strided ∧
    ∀ k, 0 ≤ k → (k * stride < ARRAY_SIZE ↔ k < n_strided).
Proof.
  intros Hs. pose proof ARRAY_SIZE_pos as HA.
  exists ((ARRAY_SIZE - 0 - 1) / stride + 1). split_and!.
  - unfold range_len.
    destruct (stride =? 0) eqn:H0; [apply Z.eqb_eq in H0; lia|].
    destruct (0 <? stride) eqn:H1; [|apply Z.ltb_ge in H1; lia].
    destruct (0 <? ARRAY_SIZE) eqn:H2; [done|apply Z.ltb_ge in H2; lia].
  - assert (0 ≤ (ARRAY_SIZE - 0 - 1) / stride) by (apply Z.div_pos; lia). lia.
  - intros k Hk. split.
    + intros Hlt. assert (k ≤ (ARRAY_SIZE - 0 - 1) / stride); [|lia].
      apply Z.div_le_lower_bound; lia.
    + intros Hlt.
      pose proof (Z.mul_div_le (ARRAY_SIZE - 0 - 1) stride ltac:(lia)) as Hm.
      nia.
Qed.

(** A draw of [randrange(0, ARRAY_SIZE, step)] is a multiple of [step]
    below [ARRAY_SIZE], and takes one item of the random source. *)
Lemma randrange_strided g step :
  1 ≤ step →
  ∃ n, randrange g 0 ARRAY_SIZE step
       = (Ok n, mkRandom (entropy g) (S (cursor g))) ∧
       0 ≤ n < ARRAY_SIZE ∧ n `mod` step = 0.
Proof.
  intros Hs. destruct (range_len_strided step Hs) as (len & Hlen & Hpos & Hcount).
  unfold randrange. rewrite Hlen.
  destruct (len <=? 0) eqn:Hle; [apply Z.leb_le in Hle; lia|].
  unfold randbelow. eexists. split; [reflexivity|].
  pose proof (Z.mod_pos_bound (entropy g (cursor g)) len ltac:(lia)) as Hk.
  set (k := entropy g (cursor g) `mod` len) in *.
  assert (k * step < ARRAY_SIZE) as Hbelow by (apply Hcount; lia).
  split; [nia|].
  rewrite Z.add_0_l, Z.mul_comm. apply Z.mod_mul. lia.
Qed.

Lemma directed_strided_loop_spec count stride g :
  1 ≤ stride →
  ∃ bases,
    directed_strided_loop count stride g
    = (Ok (paired stride bases), mkRandom (entropy g) (cursor g + count)) ∧
    length bases = count ∧
    Forall (λ base_addr, 0 ≤ base_addr < ARRAY_SIZE ∧
                         base_addr `mod` (2 * stride) = 0) bases.
Proof.
  intros Hs. revert g. induction count as [|count IH]; intros g.
  - exists []. simpl. rewrite Nat.add_0_r. by destruct g.
  - destruct (randrange_strided g (2 * stride) ltac:(lia)) as (b & Hdraw & Hb).
    destruct (IH (mkRandom (entropy g) (S (cursor g)))) as (bases & Hrest & Hlen & Hall).
    exists (b :: bases). simpl. rewrite Hdraw, Hrest. simpl.
    split_and!; [|by rewrite Hlen|by constructor].
    do 3 f_equal. lia.
Qed.

Lemma paired_length stride bases :
  length (paired stride bases) = (2 * length bases)%nat.
Proof. unfold paired. induction bases as [|b l IH]; simpl in *; lia. Qed.

(** C9. For every [stride >= 1] the directed-strided generator returns the
    pairs [base, base + stride] of a list of bases, in order: as many bases
    as the smaller of [MAX_ADDRESSES // 2] and the number of multiples of
    [stride] below [ARRAY_SIZE], so twice as many addresses; every base is
    below [ARRAY_SIZE] and a multiple of [2 * stride]; one draw of the
    random source is taken per base. *)
Theorem directed_strided (stride : Z) (g : Random) :
  1 ≤ stride →
  ∃ n_strided bases g',
    range_len 0 ARRAY_SIZE stride = Ok n_strided ∧
    (∀ k, 0 ≤ k → (k * stride < ARRAY_SIZE ↔ k < n_strided)) ∧
    generate_directed_strided_addresses stride g = (Ok (paired stride bases), g') ∧
    Z.of_nat (length bases) = Z.min (MAX_ADDRESSES / 2) n_strided ∧
    length (paired stride bases) = (2 * length bases)%nat ∧
    Forall (λ base_addr, 0 ≤ base_addr < ARRAY_SIZE ∧
                         base_addr `mod` (2 * stride) = 0) bases ∧
    cursor g' = (cursor g + length bases)%nat.
Proof.
  intros Hs. destruct (range_len_strided stride Hs) as (n & Hlen & Hpos & Hcount).
  destruct (directed_strided_loop_spec
              (Z.to_nat (Z.min (MAX_ADDRESSES / 2) n)) stride g Hs)
    as (bases & Hloop & Hbases & Hall).
  exists n, bases, (mkRandom (entropy g) (cursor g + length bases)).
  split_and!; [done|done| | |apply paired_length|done|done].
  - unfold generate_directed_strided_addresses. rewrite Hlen. cbn zeta.
    rewrite Hloop. by rewrite Hbases.
  - rewrite Hbases. apply Z2Nat.id.
    assert (0 ≤ MAX_ADDRESSES / 2) by done. lia.
Qed.

Lemma directed_strided_witness :
  ∃ g', generate_directed_strided_addresses (2 ^ 29) (draws [0; 5; 1; 3; 8])
        = (Ok (paired (2 ^ 29) [0; 2 ^ 30; 2 ^ 30; 2 ^ 30]), g') ∧
        cursor g' = 4%nat.
Proof.
  destruct (directed_strided (2 ^ 29) (draws [0; 5; 1; 3; 8]))
    as (n & bases & g' & _ & _ & Hgen & _ & _ & _ & Hcur); [lia|].
  exists g'. vm_compute in Hgen. injection Hgen as Hbases <-.
  split; [|reflexivity]. vm_compute. reflexivity.
Defined.

(** What the [while] loop of the random-strided generator keeps: the set
    holds the elements of the list, and never more than [n_addresses]. *)
Lemma random_strided_loop_spec fuel stride n_addresses result_set res g out g' :
  1 ≤ stride →
  result_set = list_to_set res →
  Z.of_nat (size result_set) ≤ n_addresses →
  Forall (λ n, 0 ≤ n < ARRAY_SIZE ∧ n `mod` stride = 0) res →
  random_strided_loop fuel stride n_addresses result_set res g = Some (out, g') →
  ∃ l, out = Ok l ∧
    Z.of_nat (size (list_to_set l : gset Z)) = n_addresses ∧
    Forall (λ n, 0 ≤ n < ARRAY_SIZE ∧ n `mod` stride = 0) l.
Proof.
  intros Hs. revert result_set res g.
  induction fuel as [|fuel IH]; intros result_set res g Hset Hsize Hall; simpl.
  - destruct (Z.of_nat (size result_set) <? n_addresses) eqn:Hlt; [done|].
    apply Z.ltb_ge in Hlt. intros [= <- <-]. exists res.
    split; [done|]. split; [rewrite <- Hset; lia|done].
  - destruct (Z.of_nat (size result_set) <? n_addresses) eqn:Hlt.
    + apply Z.ltb_lt in Hlt.
      destruct (randrange_strided g stride Hs) as (n & -> & Hn).
      apply IH.
      * rewrite list_to_set_app_L, Hset. set_solver.
      * pose proof (size_union_alt ({[n]} : gset Z) result_set) as Hu.
        pose proof (subseteq_size (result_set ∖ {[n]}) result_set ltac:(set_solver)).
        rewrite size_singleton in Hu. lia.
      * apply Forall_app. split; [done|]. by constructor.
    + apply Z.ltb_ge in Hlt. intros [= <- <-]. exists res.
      split; [done|]. split; [rewrite <- Hset; lia|done].
Qed.

Lemma size_list_to_set_length (l : list Z) :
  (size (list_to_set l : gset Z) ≤ length l)%nat.
Proof.
  induction l as [|x l IH].
  - by rewrite list_to_set_nil, size_empty.
  - rewrite list_to_set_cons. simpl length.
    pose proof (size_union_alt ({[x]} : gset Z) (list_to_set l)) as Hu.
    pose proof (subseteq_size (list_to_set l ∖ {[x]} : gset Z) (list_to_set l)
                  ltac:(set_solver)).
    rewrite size_singleton in Hu. lia.
Qed.

(** The part of C3 that the code keeps: a call that returns gives multiples
    of [stride] below [ARRAY_SIZE], with exactly
    [min(MAX_ADDRESSES, n_strided)] distinct values among them. *)
Lemma random_strided_values fuel stride g out g' :
  1 ≤ stride →
  generate_random_strided_addresses fuel stride g = Some (out, g') →
  ∃ n_strided l, range_len 0 ARRAY_SIZE stride = Ok n_strided ∧ out = Ok l ∧
    Z.of_nat (size (list_to_set l : gset Z)) = Z.min MAX_ADDRESSES n_strided ∧
    Z.min MAX_ADDRESSES n_strided ≤ Z.of_nat (length l) ∧
    Forall (λ n, 0 ≤ n < ARRAY_SIZE ∧ n `mod` stride = 0) l.
Proof.
  intros Hs. destruct (range_len_strided stride Hs) as (n & Hlen & Hpos & _).
  unfold generate_random_strided_addresses. rewrite Hlen. cbn zeta. intros Hloop.
  apply random_strided_loop_spec in Hloop as (l & -> & Hsize & Hall);
    [|done|done| |done].
  - exists n, l. split_and!; [done..| |done].
    rewrite <- Hsize.
    pose proof (size_list_to_set_length l). lia.
  - rewrite size_empty. assert (0 < MAX_ADDRESSES) by done. lia.
Qed.

(** C3, at a failing input. With [stride = 2^30] there are two strided
    positions, 0 and [2^30], so two addresses are asked for; when the random
    source draws position 0 twice and then position 1, the call returns
    [0, 0, 2^30]: the address 0 is repeated, and the list has three
    elements, not two. *)
Theorem random_strided_repeats :
  range_len 0 ARRAY_SIZE (2 ^ 30) = Ok 2 ∧
  Z.min MAX_ADDRESSES 2 = 2 ∧
  fst <$> generate_random_strided_addresses 3 (2 ^ 30) (draws [0; 0; 1])
    = Some (Ok [0; 0; 2 ^ 30]) ∧
  ¬ NoDup [0; 0; 2 ^ 30] ∧
  Z.of_nat (length [0; 0; 2 ^ 30]) ≠ 2.
Proof.
  split_and!; [reflexivity|reflexivity|vm_compute; reflexivity| |simpl; lia].
  intros Hnd. apply NoDup_cons in Hnd as [Hnotin _]. apply Hnotin. set_solver.
Qed.

(** ** More on one access *)

Lemma fifo_insert_resident c line_id :
  level_wf c → line_id ∈ cached_lines_set (fifo_insert c line_id).
Proof.
  intros (Hn & _ & _ & Hset). unfold fifo_insert.
  destruct (decide (line_id ∈ cached_lines_set c)) as [|Hout]; [done|].
  destruct (Z.of_nat (length (cached_lines_queue c)) =? n_lines c) eqn:Hfull.
  - destruct (cached_lines_queue c) as [|oldest rest] eqn:Hq.
    + apply Z.eqb_eq in Hfull. simpl in Hfull. lia.
    + simpl. set_solver.
  - simpl. set_solver.
Qed.

(** After an access, the line of the address is resident in the root. *)
Lemma perform_access_resident c next_memory address c' next' :
  level_wf c →
  perform_access (CacheModel c next_memory) address = Ok (CacheModel c' next') →
  address / line_size c ∈ cached_lines_set c' ∧
  line_size c' = line_size c ∧ hit_penalty c' = hit_penalty c ∧
  n_lines c' = n_lines c ∧ level_wf c'.
Proof.
  intros Hwf. rewrite perform_access_cases by done. case_decide as Hin.
  - intros [= <- <-]. split_and!; [done..|by apply add_penalty_wf].
  - destruct (perform_access next_memory address) as [n'|e]; [|done].
    cbn. intros [= <- <-].
    destruct (fifo_insert_config c (address / line_size c)) as (? & ? & ? & ?).
    split_and!; [by apply fifo_insert_resident|done..|by apply fifo_insert_wf].
Qed.

Lemma access_all_reached m0 addresses m :
  fresh m0 → access_all m0 addresses = Ok m → all_levels level_wf m.
Proof.
  intros Hfresh Hrun.
  destruct (access_all_wf m0 addresses (fresh_wf m0 Hfresh)) as (m' & Hrun' & Hall).
  rewrite Hrun in Hrun'. by injection Hrun' as <-.
Qed.

(** X1. In any state that accesses from the constructors reach, an access
    to [a] followed at once by an access to an address [b] of the same line
    of the root makes the second access a hit of the root: it adds exactly
    the root's [hit_penalty] to the total and changes nothing else, neither
    the queue and the set of the root nor any level below. *)
Theorem hit_after_access (m0 : MemoryModel) (addresses : list Z)
    (c : CacheLevel) (next_memory : MemoryModel) (a b : Z) :
  fresh m0 → access_all m0 addresses = Ok (CacheModel c next_memory) →
  b / line_size c = a / line_size c →
  ∃ c1 next1,
    perform_access (CacheModel c next_memory) a = Ok (CacheModel c1 next1) ∧
    perform_access (CacheModel c1 next1) b
      = Ok (CacheModel (add_penalty c1 (hit_penalty c)) next1) ∧
    get_total_penalty (CacheModel (add_penalty c1 (hit_penalty c)) next1)
      = get_total_penalty (CacheModel c1 next1) + hit_penalty c.
Proof.
  intros Hfresh Hrun Hline.
  pose proof (access_all_reached m0 addresses _ Hfresh Hrun) as [Hwf Hnext].
  destruct (perform_access_wf (CacheModel c next_memory) a (conj Hwf Hnext))
    as ([p t|c1 next1] & Hstep & Hall1).
  { rewrite perform_access_cases in Hstep by done. case_decide; [done|].
    by destruct (perform_access next_memory a). }
  destruct (perform_access_resident c next_memory a c1 next1 Hwf Hstep)
    as (Hres & Hls & Hhit & _ & Hwf1).
  exists c1, next1. split; [done|]. split.
  - rewrite perform_access_cases by done.
    rewrite Hls, Hline, decide_True by done. by rewrite Hhit.
  - simpl. lia.
Qed.

Lemma toy_cache_fresh : ∃ m, toy_cache = Ok m ∧ fresh m.
Proof.
  eexists. split; [reflexivity|].
  apply (fresh_cache 2 128 1 (RamModel_init 100)); [apply fresh_ram|reflexivity].
Defined.

Lemma hit_after_access_witness :
  ∃ m c next_memory c1 next1, toy_cache = Ok m ∧
    access_all m [0; 4096] = Ok (CacheModel c next_memory) ∧
    perform_access (CacheModel c next_memory) 256 = Ok (CacheModel c1 next1) ∧
    perform_access (CacheModel c1 next1) 383
      = Ok (CacheModel (add_penalty c1 (hit_penalty c)) next1).
Proof.
  destruct toy_cache_fresh as (m & Hm & Hfresh).
  destruct (access_all_wf m [0; 4096] (fresh_wf m Hfresh))
    as ([p t|c next_memory] & Hrun & _).
  { injection Hm as <-. vm_compute in Hrun. discriminate. }
  assert (line_size c = 128) as Hls.
  { injection Hm as <-. vm_compute in Hrun. by injection Hrun as <- _. }
  destruct (hit_after_access m [0; 4096] c next_memory 256 383 Hfresh Hrun)
    as (c1 & next1 & H1 & H2 & _); [by rewrite Hls|].
  by exists m, c, next_memory, c1, next1.
Defined.

(** ** The cost of an access *)

Lemma perform_access_cost m address m' :
  all_levels level_wf m → perform_access m address = Ok m' →
  penalties m' = penalties m ∧
  get_total_penalty m' - get_total_penalty m ∈ penalties m.
Proof.
  revert m'. induction m as [p t|c next_memory IH]; intros m' Hall Hstep.
  - injection Hstep as <-. simpl. split; [done|].
    replace (t + p - t) with p by lia. set_solver.
  - destruct Hall as [Hwf Hnext]. rewrite perform_access_cases in Hstep by done.
    case_decide.
    + injection Hstep as <-. simpl. split; [done|].
      replace (_ - _) with (hit_penalty c) by lia. set_solver.
    + destruct (perform_access next_memory address) as [next'|e] eqn:Hn; [|done].
      cbn in Hstep. injection Hstep as <-.
      destruct (IH next' Hnext eq_refl) as [Hpen Hcost].
      destruct (fifo_insert_config c (address / line_size c)) as (_ & _ & Hh & Ht).
      simpl. rewrite Hh, Ht, Hpen. split; [done|].
      replace (_ - _) with (get_total_penalty next' - get_total_penalty next_memory)
        by lia.
      set_solver.
Qed.

Lemma access_all_cost m addresses m' lo hi :
  all_levels level_wf m → access_all m addresses = Ok m' →
  (∀ p, p ∈ penalties m → lo ≤ p ≤ hi) →
  penalties m' = penalties m ∧
  Z.of_nat (length addresses) * lo
    ≤ get_total_penalty m' - get_total_penalty m
    ≤ Z.of_nat (length addresses) * hi.
Proof.
  revert m. induction addresses as [|a l IH]; intros m Hall Hrun Hpen.
  - injection Hrun as <-. split; [done|]. simpl. lia.
  - destruct (perform_access_wf m a Hall) as (m1 & Hstep & Hall1).
    simpl in Hrun. rewrite Hstep in Hrun. cbn in Hrun.
    destruct (perform_access_cost m a m1 Hall Hstep) as [Hp1 Hcost].
    apply Hpen in Hcost.
    destruct (IH m1 Hall1 Hrun) as [Hp' Hb]; [by rewrite Hp1|].
    split; [by rewrite Hp', Hp1|]. simpl length. lia.
Qed.

(** X2. Every access costs exactly one of the penalties of the hierarchy
    (the [hit_penalty] of the level that hits, or the [access_penalty] of
    the terminal store), and the penalties themselves never change.  So
    when all of them lie between [lo] and [hi], the total that
    [perform_accesses] returns for [n] addresses on a new hierarchy lies
    between [n * lo] and [n * hi]. *)
Theorem access_cost_bounds (m : MemoryModel) (addresses : list Z)
    (address lo hi : Z) :
  fresh m → (∀ p, p ∈ penalties m → lo ≤ p ≤ hi) →
  ∃ m1 m2 total,
    access_all m addresses = Ok m1 ∧ perform_access m1 address = Ok m2 ∧
    penalties m2 = penalties m ∧
    get_total_penalty m2 - get_total_penalty m1 ∈ penalties m ∧
    perform_accesses m addresses = Ok total ∧
    Z.of_nat (length addresses) * lo ≤ total ≤ Z.of_nat (length addresses) * hi.
Proof.
  intros Hfresh Hpen. pose proof (fresh_wf m Hfresh) as Hall.
  destruct (access_all_wf m addresses Hall) as (m1 & Hrun & Hall1).
  destruct (perform_access_wf m1 address Hall1) as (m2 & Hstep & _).
  destruct (access_all_cost m addresses m1 lo hi Hall Hrun Hpen) as [Hp1 Hb].
  destruct (perform_access_cost m1 address m2 Hall1 Hstep) as [Hp2 Hcost].
  exists m1, m2, (get_total_penalty m1). rewrite Hp1 in Hp2, Hcost.
  assert (get_total_penalty m = 0) as H0.
  { clear -Hfresh. induction Hfresh as [p|n l h next_memory m _ IH Hinit]; [done|].
    apply CacheModel_init_Ok in Hinit as (_ & _ & ->). simpl. lia. }
  split_and!; [done..| |lia|lia].
  unfold perform_accesses. by rewrite Hrun.
Qed.

Lemma access_cost_bounds_witness :
  ∃ m total, create_memory_models = Ok m ∧
    perform_accesses m [0; 64; 128; 0] = Ok total ∧
    4 * 1 ≤ total ≤ 4 * 1000000.
Proof.
  destruct create_memory_models_fresh as (m & Hm & Hfresh & _).
  destruct (access_cost_bounds m [0; 64; 128; 0] 0 1 1000000 Hfresh)
    as (m1 & m2 & total & _ & _ & _ & _ & Htotal & Hb).
  { injection Hm as <-. intros p Hp. simpl in Hp.
    rewrite !elem_of_cons in Hp. rewrite elem_of_nil in Hp.
    destruct Hp as [->|[->|[->|[->|[]]]]]; lia. }
  by exists m, total.
Defined.

(** ** One cache level over the terminal store *)

Lemma one_level_access c p t address :
  level_wf c →
  perform_access (CacheModel c (RamModel p t)) address =
    if decide (address / line_size c ∈ cached_lines_set c) then
      Ok (CacheModel (add_penalty c (hit_penalty c)) (RamModel p t))
    else
      Ok (CacheModel (fifo_insert c (address / line_size c)) (RamModel p (t + p))).
Proof. intros Hwf. rewrite perform_access_cases by done. by case_decide. Qed.

Lemma level_wf_length c :
  level_wf c → length (cached_lines_queue c) = size (cached_lines_set c).
Proof. intros (_ & _ & Hnd & ->). symmetry. by apply size_list_to_set. Qed.

(** A line that is not resident goes to the back of the queue, behind all
    the entries but the front one of a full queue. *)
Lemma fifo_insert_miss c line_id :
  level_wf c → line_id ∉ cached_lines_set c →
  cached_lines_queue (fifo_insert c line_id)
    = (if Z.of_nat (length (cached_lines_queue c)) =? n_lines c
       then tail (cached_lines_queue c) else cached_lines_queue c) ++ [line_id] ∧
  cached_lines_set (fifo_insert c line_id) ⊆ {[line_id]} ∪ cached_lines_set c.
Proof.
  intros (Hn & _ & _ & Hset) Hout. unfold fifo_insert.
  rewrite decide_False by done.
  destruct (Z.of_nat (length (cached_lines_queue c)) =? n_lines c) eqn:Hfull.
  - destruct (cached_lines_queue c) as [|oldest rest] eqn:Hq.
    + apply Z.eqb_eq in Hfull. simpl in Hfull. lia.
    + simpl. split; [done|set_solver].
  - simpl. split; [done|set_solver].
Qed.

Lemma streaming_accesses c p t addresses :
  level_wf c → 0 < n_lines c →
  Z.of_nat (length (cached_lines_queue c)) ≤ n_lines c →
  NoDup (line_of (line_size c) <$> addresses) →
  (∀ a, a ∈ addresses → a / line_size c ∉ cached_lines_set c) →
  ∃ c', access_all (CacheModel c (RamModel p t)) addresses
          = Ok (CacheModel c' (RamModel p (t + Z.of_nat (length addresses) * p))) ∧
        total_penalty c' = total_penalty c ∧
        cached_lines_queue c'
          = drop (length (cached_lines_queue c) + length addresses
                  - Z.to_nat (n_lines c))
              (cached_lines_queue c ++ (line_of (line_size c) <$> addresses)).
Proof.
  revert c t. induction addresses as [|a l IH]; intros c t Hwf Hpos Hle Hnd Hnew.
  - exists c. simpl. split_and!; [do 3 f_equal; lia|done|].
    rewrite app_nil_r.
    replace (length (cached_lines_queue c) + 0 - Z.to_nat (n_lines c))%nat
      with 0%nat by lia. done.
  - cbn [access_all]. rewrite one_level_access by done.
    rewrite decide_False by (apply Hnew; set_solver). cbn [mbind result_bind].
    set (id := a / line_size c).
    destruct (fifo_insert_config c id) as (Hk & Hls & Hh & Ht).
    destruct (fifo_insert_miss c id Hwf) as [Hq Hsub]; [apply Hnew; set_solver|].
    rewrite fmap_cons in Hnd. apply NoDup_cons in Hnd as [Hfresh Hnd].
    destruct (IH (fifo_insert c id) (t + p)) as (c' & Hrun & Htot & Hqueue).
    + by apply fifo_insert_wf.
    + by rewrite Hk.
    + rewrite Hk. by apply fifo_insert_bound.
    + by rewrite Hls.
    + intros b Hb Hin. apply Hsub in Hin. rewrite Hls in Hin.
      apply elem_of_union in Hin as [Heq%elem_of_singleton|Hin].
      * apply Hfresh. apply list_elem_of_fmap. exists b.
        split; [|done]. unfold line_of. by rewrite Heq.
      * by apply (Hnew b); [set_solver|].
    + exists c'. rewrite Hrun. split_and!.
      * do 3 f_equal. simpl length. lia.
      * by rewrite Htot.
      * rewrite Hqueue, Hk, Hls, Hq. simpl length. rewrite fmap_cons.
        fold id. unfold line_of at 2. fold id.
        destruct (Z.of_nat (length (cached_lines_queue c)) =? n_lines c) eqn:Hfull.
        -- apply Z.eqb_eq in Hfull.
           destruct (cached_lines_queue c) as [|oldest rest] eqn:Hqc;
             [simpl in Hfull; lia|].
           simpl tail. rewrite <- app_assoc. simpl.
           rewrite length_app. simpl length. simpl length in Hfull.
           replace (length rest + 1 + length l - Z.to_nat (n_lines c))%nat
             with (length l) by lia.
           replace (S (length rest + S (length l)) - Z.to_nat (n_lines c))%nat
             with (S (length l)) by lia.
           done.
        -- apply Z.eqb_neq in Hfull. rewrite <- app_assoc. simpl.
           rewrite length_app. simpl length. f_equal. lia.
Qed.

(** X3. A new cache level of capacity [k > 0] over a terminal store, fed
    addresses whose lines are pairwise distinct, never hits: all [n]
    accesses go to the store, the total is [n * access_penalty], and the
    level is left with the lines of the last [k] addresses, in the order of
    access (the first lines are evicted first). *)
Theorem streaming_never_hits (k ls h p : Z) (m : MemoryModel) (addresses : list Z) :
  CacheModel_init k ls h (RamModel_init p) = Ok m → 0 < k →
  NoDup (line_of ls <$> addresses) →
  ∃ c', access_all m addresses
          = Ok (CacheModel c' (RamModel p (Z.of_nat (length addresses) * p))) ∧
        total_penalty c' = 0 ∧
        cached_lines_queue c'
          = drop (length addresses - Z.to_nat k) (line_of ls <$> addresses) ∧
        perform_accesses m addresses = Ok (Z.of_nat (length addresses) * p).
Proof.
  intros Hinit Hk Hnd.
  pose proof (fresh_cache k ls h _ m (fresh_ram p) Hinit) as Hfresh.
  apply fresh_wf in Hfresh as Hall.
  apply CacheModel_init_Ok in Hinit as (_ & _ & ->). destruct Hall as [Hwf _].
  destruct (streaming_accesses _ p 0 addresses Hwf) as (c' & Hrun & Htot & Hq);
    [simpl; lia|simpl; lia|done|set_solver|].
  simpl in Hrun, Htot, Hq. exists c'.
  unfold perform_accesses, RamModel_init. rewrite Hrun. cbn. rewrite Hq.
  split_and!; [done..|]. f_equal. lia.
Qed.

Lemma streaming_never_hits_witness :
  ∃ m c', toy_cache = Ok m ∧
    access_all m [0; 128; 300] = Ok (CacheModel c' (RamModel 100 300)) ∧
    cached_lines_queue c' = [1; 2] ∧
    perform_accesses m [0; 128; 300] = Ok 300.
Proof.
  assert (NoDup (line_of 128 <$> [0; 128; 300])) as Hnd.
  { vm_compute. apply NoDup_cons. split; [set_solver|].
    apply NoDup_cons. split; [set_solver|]. apply NoDup_singleton. }
  destruct (streaming_never_hits 2 128 1 100 _ [0; 128; 300] eq_refl) as
    (c' & Hrun & _ & Hq & Htotal); [lia|done|].
  eexists _, c'. split; [reflexivity|]. by split_and!.
Defined.

(** When the lines of the addresses all find room, because the capacity is
    negative (the queue length never equals it) or because the lines are no
    more than the capacity, nothing is evicted. *)
Lemma no_eviction c p t addresses :
  level_wf c →
  n_lines c < 0 ∨
    Z.of_nat (size (cached_lines_set c
                    ∪ list_to_set (line_of (line_size c) <$> addresses)))
      ≤ n_lines c →
  ∃ c',
    access_all (CacheModel c (RamModel p t)) addresses
      = Ok (CacheModel c'
              (RamModel p
                 (t + (Z.of_nat (size (cached_lines_set c'))
                       - Z.of_nat (size (cached_lines_set c))) * p))) ∧
    cached_lines_set c'
      = cached_lines_set c ∪ list_to_set (line_of (line_size c) <$> addresses) ∧
    length (cached_lines_queue c') = size (cached_lines_set c') ∧
    n_lines c' = n_lines c ∧
    total_penalty c'
      = total_penalty c
        + (Z.of_nat (length addresses)
           - (Z.of_nat (size (cached_lines_set c'))
              - Z.of_nat (size (cached_lines_set c)))) * hit_penalty c.
Proof.
  revert c t. induction addresses as [|a l IH]; intros c t Hwf Hroom.
  - exists c. simpl. split_and!.
    + do 3 f_equal. lia.
    + set_solver.
    + by apply level_wf_length.
    + done.
    + lia.
  - cbn [access_all]. rewrite one_level_access by done.
    rewrite fmap_cons in Hroom. unfold line_of at 1 in Hroom.
    rewrite fmap_cons. unfold line_of at 1.
    set (id := a / line_size c) in *.
    destruct (decide (id ∈ cached_lines_set c)) as [Hin|Hout];
      cbn [mbind result_bind].
    + destruct (IH (add_penalty c (hit_penalty c)) t)
        as (c' & Hrun & Hset & Hlen & Hcap & Htot).
      * by apply add_penalty_wf.
      * simpl.
        replace (cached_lines_set c ∪ list_to_set (line_of (line_size c) <$> l))
          with (cached_lines_set c ∪ list_to_set (id :: (line_of (line_size c) <$> l)))
          by set_solver.
        done.
      * simpl in Hrun, Hset, Hcap, Htot. exists c'. rewrite Hrun.
        split_and!; [done|set_solver|done|done|]. rewrite Htot. simpl length. lia.
    + assert (size ({[id]} ∪ cached_lines_set c) = S (size (cached_lines_set c)))
        as Hsize.
      { rewrite size_union by set_solver. by rewrite size_singleton. }
      assert (fifo_insert c id
              = set_lines c (cached_lines_queue c ++ [id])
                  ({[id]} ∪ cached_lines_set c)) as Hins.
      { unfold fifo_insert. rewrite decide_False by done.
        destruct (Z.of_nat (length (cached_lines_queue c)) =? n_lines c) eqn:Hfull;
          [|done].
        exfalso. apply Z.eqb_eq in Hfull. rewrite (level_wf_length c Hwf) in Hfull.
        destruct Hroom as [Hneg|Hfit]; [lia|].
        pose proof (subseteq_size ({[id]} ∪ cached_lines_set c)
                      (cached_lines_set c
                       ∪ list_to_set (id :: (line_of (line_size c) <$> l)))
                      ltac:(set_solver)).
        lia. }
      pose proof (fifo_insert_wf c id Hwf) as Hwf1. rewrite Hins in *.
      destruct (IH (set_lines c (cached_lines_queue c ++ [id])
                      ({[id]} ∪ cached_lines_set c)) (t + p))
        as (c' & Hrun & Hset & Hlen & Hcap & Htot).
      * done.
      * simpl.
        replace ({[id]} ∪ cached_lines_set c
                 ∪ list_to_set (line_of (line_size c) <$> l))
          with (cached_lines_set c
                ∪ list_to_set (id :: (line_of (line_size c) <$> l)))
          by set_solver.
        done.
      * simpl in Hrun, Hset, Hcap, Htot. exists c'. rewrite Hrun.
        split_and!; [|set_solver|done|done|].
        -- do 3 f_equal. lia.
        -- rewrite Htot. simpl length. lia.
Qed.

(** X4. When the distinct lines of the addresses are no more than the
    capacity of a new cache level over a terminal store, only the first
    access to each line misses: with [d] distinct lines among [n] addresses
    the total is [d * access_penalty + (n - d) * hit_penalty], and the level
    ends up holding exactly these [d] lines. *)
Theorem working_set_fits (k ls h p : Z) (m : MemoryModel) (addresses : list Z) :
  CacheModel_init k ls h (RamModel_init p) = Ok m →
  Z.of_nat (size (list_to_set (line_of ls <$> addresses) : gset Z)) ≤ k →
  ∃ c' r',
    access_all m addresses = Ok (CacheModel c' r') ∧
    cached_lines_set c' = list_to_set (line_of ls <$> addresses) ∧
    length (cached_lines_queue c') = size (cached_lines_set c') ∧
    perform_accesses m addresses
      = Ok (Z.of_nat (size (cached_lines_set c')) * p
            + (Z.of_nat (length addresses) - Z.of_nat (size (cached_lines_set c')))
              * h).
Proof.
  intros Hinit Hfit.
  pose proof (fresh_cache k ls h _ m (fresh_ram p) Hinit) as Hfresh.
  apply fresh_wf in Hfresh as Hall.
  apply CacheModel_init_Ok in Hinit as (_ & _ & ->). destruct Hall as [Hwf _].
  destruct (no_eviction _ p 0 addresses Hwf) as (c' & Hrun & Hset & Hlen & _ & Htot).
  { right. cbn [cached_lines_set line_size n_lines]. by rewrite (left_id_L ∅ (∪)). }
  cbn [cached_lines_set line_size hit_penalty total_penalty] in Hrun, Hset, Htot.
  rewrite (left_id_L ∅ (∪)) in Hset. rewrite size_empty in Hrun, Htot.
  eexists c', _. unfold perform_accesses, RamModel_init. rewrite Hrun. cbn.
  split_and!; [done..|]. f_equal. rewrite Htot. lia.
Qed.

Lemma working_set_fits_witness :
  ∃ m c' r', toy_cache = Ok m ∧
    access_all m [0; 130; 5; 200] = Ok (CacheModel c' r') ∧
    cached_lines_set c' = list_to_set (line_of 128 <$> [0; 130; 5; 200]) ∧
    perform_accesses m [0; 130; 5; 200] = Ok (2 * 100 + (4 - 2) * 1).
Proof.
  assert (size (list_to_set (line_of 128 <$> [0; 130; 5; 200]) : gset Z) = 2%nat)
    as Hsize by (vm_compute; reflexivity).
  destruct (working_set_fits 2 128 1 100 _ [0; 130; 5; 200] eq_refl)
    as (c' & r' & Hrun & Hset & _ & Htotal); [rewrite Hsize; lia|].
  rewrite Hset, Hsize in Htotal.
  eexists _, c', r'. split; [reflexivity|]. by split_and!.
Defined.

(** X5. The constructor takes a negative [n_lines] (its assertion only
    rejects zero), and such a level never evicts: the queue length is never
    equal to [n_lines], so after any accesses the level holds every line
    that was accessed, and its queue is longer than its capacity. *)
Theorem negative_capacity_never_evicts (k ls h p : Z) (addresses : list Z) :
  k < 0 → ls ≠ 0 →
  ∃ m c' r',
    CacheModel_init k ls h (RamModel_init p) = Ok m ∧
    access_all m addresses = Ok (CacheModel c' r') ∧
    n_lines c' = k ∧
    cached_lines_set c' = list_to_set (line_of ls <$> addresses) ∧
    length (cached_lines_queue c') = size (cached_lines_set c') ∧
    n_lines c' < Z.of_nat (length (cached_lines_queue c')).
Proof.
  intros Hk Hls.
  assert (CacheModel_init k ls h (RamModel_init p)
          = Ok (CacheModel (mkCacheLevel k ls h [] ∅ 0) (RamModel_init p))) as Hinit.
  { unfold CacheModel_init.
    destruct (k =? 0) eqn:H0; [apply Z.eqb_eq in H0; lia|].
    destruct (ls =? 0) eqn:H1; [apply Z.eqb_eq in H1; lia|]. done. }
  pose proof (fresh_cache k ls h _ _ (fresh_ram p) Hinit) as Hfresh.
  apply fresh_wf in Hfresh as [Hwf _].
  destruct (no_eviction _ p 0 addresses Hwf) as (c' & Hrun & Hset & Hlen & Hcap & _).
  { left. simpl. lia. }
  cbn [cached_lines_set line_size n_lines] in Hrun, Hset, Hcap.
  rewrite (left_id_L ∅ (∪)) in Hset.
  eexists _, c', _. split; [exact Hinit|]. unfold RamModel_init.
  split; [exact Hrun|]. split_and!; [done..|lia].
Qed.

Lemma negative_capacity_never_evicts_witness :
  ∃ m c' r', CacheModel_init (-1) 128 1 (RamModel_init 100) = Ok m ∧
    access_all m [0; 128; 256] = Ok (CacheModel c' r') ∧
    cached_lines_set c' = list_to_set (line_of 128 <$> [0; 128; 256]) ∧
    n_lines c' < Z.of_nat (length (cached_lines_queue c')).
Proof.
  destruct (negative_capacity_never_evicts (-1) 128 1 100 [0; 128; 256])
    as (m & c' & r' & Hinit & Hrun & _ & Hset & _ & Hlong); [lia|lia|].
  by exists m, c', r'.
Defined.

(** ** More on the convergence estimator *)

Section estimator_more.
Context {num : Type} {Hnum : PyNum num}.
Implicit Types (eps : num) (st : mean_state num) (data tail : list (result num)).
Implicit Types (xs : list num).

(** What [mean] returns on a stream of values is what the division
    [sum / n] returned for the items taken. *)
Lemma mean_values_average xs eps n_expected_successes v :
  mean (Ok <$> xs) eps n_expected_successes = Ok v →
  ∃ j, (1 ≤ j ≤ length xs)%nat ∧
       truediv (num_sum (take j xs)) (Z.of_nat j) = Ok v.
Proof.
  intros Hmean.
  pose proof (mean_run_values eps n_expected_successes xs) as Hrun.
  unfold mean in Hmean.
  destruct (mean_run (Ok <$> xs) eps n_expected_successes) as [k w|k w|e];
    [| |done]; injection Hmean as ->.
  - destruct Hrun as (j & Hj & -> & Hv). by exists j.
  - destruct Hrun as (Hne & -> & Hv). exists (length xs).
    rewrite firstn_all. split; [|done]. destruct xs; [done|simpl; lia].
Qed.

(** On a non-empty stream of values whose divisions return, [mean]
    returns. *)
Lemma mean_values_return xs eps n_expected_successes :
  xs ≠ [] →
  (∀ (a : num) n, 0 < n ≤ Z.of_nat (length xs) → ∃ v, truediv a n = Ok v) →
  ∃ v, mean (Ok <$> xs) eps n_expected_successes = Ok v.
Proof.
  intros Hne Hdiv.
  pose proof (mean_run_values eps n_expected_successes xs) as Hrun.
  unfold mean.
  destruct (mean_run (Ok <$> xs) eps n_expected_successes) as [k w|k w|e]; eauto.
  destruct Hrun as [[_ ->]|(j & Hj & Hraise)]; [done|].
  destruct (Hdiv (num_sum (take j xs)) (Z.of_nat j)) as [v Hv]; [lia|].
  rewrite Hv in Hraise. done.
Qed.

(** [mean] stops at the item that makes it return: what follows in the
    stream has no effect. *)
Lemma mean_loop_short_circuit eps n_expected_successes st data tail k v :
  mean_loop eps n_expected_successes st data = Converged k v →
  mean_loop eps n_expected_successes st (data ++ tail) = Converged k v.
Proof.
  revert st. induction data as [|[x|e] rest IH]; intros st; simpl.
  - by destruct (ms_n st =? 0).
  - destruct (mean_step eps n_expected_successes st x); [apply IH|done..].
  - done.
Qed.

(** Values that [mean] takes to the end of the stream leave it asking for
    the next item. *)
Lemma mean_loop_continue eps n_expected_successes st xs tail k v :
  mean_loop eps n_expected_successes st (Ok <$> xs) = Exhausted k v →
  ∃ st', mean_loop eps n_expected_successes st (fmap Ok xs ++ tail)
         = mean_loop eps n_expected_successes st' tail.
Proof.
  revert st. induction xs as [|x xs IH]; intros st Hrun.
  - by exists st.
  - cbn [fmap list_fmap app mean_loop] in *.
    destruct (mean_step eps n_expected_successes st x) as [st1|n w|e];
      [by apply IH|done..].
Qed.

(** The counter of successes is never above the number of items taken. *)
Lemma mean_loop_needs_threshold eps n_expected_successes st data k v :
  0 ≤ ms_n st → ms_n_successes st ≤ ms_n st →
  mean_loop eps n_expected_successes st data = Converged k v →
  n_expected_successes ≤ k ∧ ms_n st + 1 ≤ k.
Proof.
  revert st. induction data as [|[x|e] rest IH]; intros st Hn Hst; simpl.
  - by destruct (ms_n st =? 0).
  - unfold mean_step.
    destruct (truediv (num_add (ms_sum st) x) (ms_n st + 1)) as [cur_mean|e];
      [|done].
    destruct (num_lt _ eps).
    + destruct (ms_n_successes st + 1 <? n_expected_successes) eqn:Hlt.
      * intros Hrun. apply IH in Hrun; simpl in *; lia.
      * apply Z.ltb_ge in Hlt. intros [= <- <-]. lia.
    + intros Hrun. apply IH in Hrun; simpl in *; lia.
  - done.
Qed.

(** With a tolerance that no error is below, no turn counts as a success. *)
Lemma mean_loop_never eps n_expected_successes st data k v :
  (∀ a, num_lt (num_abs a) eps = false) →
  mean_loop eps n_expected_successes st data ≠ Converged k v.
Proof.
  intros Heps. revert st. induction data as [|[x|e] rest IH]; intros st; simpl.
  - by destruct (ms_n st =? 0).
  - unfold mean_step. destruct (truediv _ _) as [cur_mean|e]; [|done].
    rewrite Heps. apply IH.
  - done.
Qed.
End estimator_more.

(** X6. Whatever the arithmetic, what [mean] returns on a stream of values
    is what its division [sum / n] returned at one of the items: for the sum
    (added from the left, from the integer 0) and the number of the items of
    a non-empty prefix of the stream, the items it has taken. *)
Theorem mean_is_prefix_average {num : Type} {Hnum : PyNum num} (xs : list num)
    (eps : num) (n_expected_successes : Z) (v : num) :
  mean (Ok <$> xs) eps n_expected_successes = Ok v →
  ∃ j, (1 ≤ j ≤ length xs)%nat ∧
       truediv (num_sum (take j xs)) (Z.of_nat j) = Ok v.
Proof. apply mean_values_average. Qed.

Lemma mean_is_prefix_average_witness :
  ∃ j, (1 ≤ j ≤ length oscillating)%nat ∧
       truediv (num_sum (take j oscillating)) (Z.of_nat j) = Ok (Qc_of_Z 5).
Proof.
  apply (mean_is_prefix_average oscillating (Qc_of_Z 1) 3).
  vm_compute. f_equal. apply Qc_is_canon. reflexivity.
Defined.

(** X7. [mean] looks at no item after the one at which it returns: a call
    that returns from inside its loop returns the same when anything is
    appended to the stream; and an exception that the stream raises after
    values that [mean] takes to their end (or after none) is raised by
    [mean]. *)
Theorem mean_short_circuit {num : Type} {Hnum : PyNum num} (xs : list num)
    (eps : num) (n_expected_successes : Z) (e : exn) (tail : list (result num)) :
  (∀ k v, mean_run (Ok <$> xs) eps n_expected_successes = Converged k v →
          mean_run (fmap Ok xs ++ tail) eps n_expected_successes = Converged k v ∧
          mean (fmap Ok xs ++ tail) eps n_expected_successes = Ok v) ∧
  (∀ k v, mean_run (Ok <$> xs) eps n_expected_successes = Exhausted k v →
          mean (fmap Ok xs ++ Raise e :: tail) eps n_expected_successes = Raise e) ∧
  mean (Raise e :: tail) eps n_expected_successes = Raise e.
Proof.
  split_and!.
  - intros k v Hrun. unfold mean, mean_run in *.
    by rewrite (mean_loop_short_circuit _ _ _ _ tail k v Hrun).
  - intros k v Hrun. unfold mean, mean_run in *.
    destruct (mean_loop_continue eps n_expected_successes mean_init xs
                (Raise e :: tail) k v Hrun) as (st' & ->).
    done.
  - done.
Qed.

Lemma mean_short_circuit_witness :
  mean (fmap Ok [Qc_of_Z 7; Qc_of_Z 7; Qc_of_Z 7; Qc_of_Z 7] ++ [Raise ValueError])
    (Qc_of_Z 1) 3 = Ok (Qc_of_Z 7) ∧
  mean (fmap Ok oscillating ++ [Raise ValueError]) (Qc_of_Z 1) 3
    = Raise ValueError.
Proof.
  split.
  - apply (mean_short_circuit _ (Qc_of_Z 1) 3 ValueError [Raise ValueError]) with 4.
    vm_compute. f_equal. apply Qc_is_canon. reflexivity.
  - apply (mean_short_circuit oscillating (Qc_of_Z 1) 3 ValueError [])
      with 4 (Qc_of_Z 5).
    vm_compute. f_equal. apply Qc_is_canon. reflexivity.
Defined.

(** X8. [mean] never returns from inside its loop before it has taken
    [n_expected_successes] items, and at least one; and with a tolerance
    that no absolute value is below (with floats: [eps <= 0], or a NaN) it
    never returns from inside its loop at all. *)
Theorem mean_earliest_return {num : Type} {Hnum : PyNum num}
    (data : list (result num)) (eps : num) (n_expected_successes k : Z) (v : num) :
  (mean_run data eps n_expected_successes = Converged k v →
   n_expected_successes ≤ k ∧ 1 ≤ k) ∧
  ((∀ a, num_lt (num_abs a) eps = false) →
   mean_run data eps n_expected_successes ≠ Converged k v).
Proof.
  split.
  - intros Hrun. by apply mean_loop_needs_threshold in Hrun.
  - intros Heps. by apply mean_loop_never.
Qed.

Lemma mean_earliest_return_witness :
  (3 ≤ 4 ∧ 1 ≤ 4) ∧
  mean_run (constant_trials 5 7) (Qc_of_Z 0) 3 ≠ Converged 4 (Qc_of_Z 7).
Proof.
  split.
  - apply (mean_earliest_return (constant_trials 5 7) (Qc_of_Z 1) 3 4 (Qc_of_Z 7)).
    vm_compute. f_equal. apply Qc_is_canon. reflexivity.
  - apply (mean_earliest_return (constant_trials 5 7) (Qc_of_Z 0) 3 4 (Qc_of_Z 7)).
    intros a. apply Qcltb_ge. rewrite Z2Qc_inj_0. apply Qcabs_nonneg.
Defined.

Lemma directed_strided_nonempty stride g :
  1 ≤ stride →
  ∃ bases g', generate_directed_strided_addresses stride g
              = (Ok (paired stride bases), g') ∧
              bases ≠ [] ∧
              Forall (λ base_addr, 0 ≤ base_addr < ARRAY_SIZE ∧
                                   base_addr `mod` (2 * stride) = 0) bases.
Proof.
  intros Hs. destruct (range_len_strided stride Hs) as (n & Hlen & Hpos & _).
  destruct (directed_strided_loop_spec
              (Z.to_nat (Z.min (MAX_ADDRESSES / 2) n)) stride g Hs)
    as (bases & Hloop & Hbases & Hall).
  exists bases, (mkRandom (entropy g) (cursor g + Z.to_nat (Z.min (MAX_ADDRESSES / 2) n))).
  unfold generate_directed_strided_addresses. rewrite Hlen. cbn zeta.
  split; [done|]. split; [|done].
  intros ->. simpl in Hbases.
  assert (1 ≤ MAX_ADDRESSES / 2) by done. lia.
Qed.

(** ** More on the experiments *)

Section experiment_more.
Context {num : Type} {Hnum : PyNum num} {G : Type}.
Implicit Types (mm : result MemoryModel) (gen : Z → G → result (list Z) * G).
Implicit Types (g : G).

(** The two models of [mean(get_penalties(), ...)] give the same outcome:
    running the trials on demand, or taking the items one by one from the
    list of what the generator yields. *)
Lemma mean_of_penalties_outcome mm gen stride (eps : num) n_expected_successes
    (max_retries : nat) st g :
  (mean_of_penalties mm gen stride eps n_expected_successes max_retries st g).1
  = mean_loop eps n_expected_successes st (get_penalties mm gen stride max_retries g).
Proof.
  revert st g. induction max_retries as [|k IH]; intros st g; simpl.
  - done.
  - destruct (gen stride g) as [[addresses|e] g']; [|done].
    destruct (trial mm addresses) as [x|e]; [|done]. cbn [mean_loop].
    destruct (mean_step eps n_expected_successes st x); [apply IH|done..].
Qed.

Lemma run_strided_experiment_from_value mm gen stride max_retries g :
  (run_strided_experiment_from (num := num) mm gen stride max_retries g).1
  = run_strided_experiment mm gen stride max_retries g.
Proof.
  unfold run_strided_experiment_from, run_strided_experiment, mean, mean_run.
  rewrite <- mean_of_penalties_outcome.
  by destruct (mean_of_penalties _ _ _ _ _ _ _ _) as [[k v|k v|e] g'].
Qed.

Lemma get_penalties_values mm gen stride (max_retries : nat) g :
  (∀ g0, ∃ l g1 (v : num), gen stride g0 = (Ok l, g1) ∧ trial mm l = Ok v) →
  ∃ vs : list num, get_penalties mm gen stride max_retries g = Ok <$> vs ∧
                   length vs = max_retries.
Proof.
  intros Hgen. revert g. induction max_retries as [|k IH]; intros g.
  - by exists [].
  - destruct (Hgen g) as (l & g1 & v & Hl & Hv).
    destruct (IH g1) as (vs & Hvs & Hlen).
    exists (v :: vs). simpl. rewrite Hl, Hv, Hvs.
    split; [done|]. by rewrite Hlen.
Qed.

(** An experiment whose trials all return, with an arithmetic whose
    divisions by the counts of the trials return, returns a value; without
    any trial, the assertion of [mean] fails. *)
Lemma experiment_values mm gen stride max_retries g :
  (∀ g0, ∃ l g1 (v : num), gen stride g0 = (Ok l, g1) ∧ trial mm l = Ok v) →
  (∀ (a : num) n, 0 < n ≤ max_retries → ∃ v, truediv a n = Ok v) →
  if max_retries <=? 0 then
    run_strided_experiment (num := num) mm gen stride max_retries g
      = Raise AssertionError
  else
    ∃ v : num, run_strided_experiment mm gen stride max_retries g = Ok v.
Proof.
  intros Hgen Hdiv. unfold run_strided_experiment.
  destruct (max_retries <=? 0) eqn:Hle.
  - apply Z.leb_le in Hle. by replace (Z.to_nat max_retries) with 0%nat by lia.
  - apply Z.leb_gt in Hle.
    destruct (get_penalties_values mm gen stride (Z.to_nat max_retries) g Hgen)
      as (vs & -> & Hlen).
    apply mean_values_return.
    + intros ->. simpl in Hlen. lia.
    + intros a n Hn. apply Hdiv. lia.
Qed.

(** A trial on a new hierarchy returns, when the division of a total
    within the bounds of the penalties does. *)
Lemma trial_returns m addresses hi :
  fresh m → (∀ p, p ∈ penalties m → 0 ≤ p ≤ hi) → addresses ≠ [] →
  (∀ a n, 0 < n → 0 ≤ a ≤ n * hi → ∃ v : num, int_truediv a n = Ok v) →
  ∃ v : num, trial (Ok m) addresses = Ok v.
Proof.
  intros Hfresh Hpen Hne Hdiv. pose proof (fresh_wf m Hfresh) as Hall.
  destruct (access_all_wf m addresses Hall) as (m1 & Hrun & _).
  destruct (access_all_cost m addresses m1 0 hi Hall Hrun Hpen) as [_ Hb].
  assert (get_total_penalty m = 0) as H0.
  { clear -Hfresh. induction Hfresh as [p|n l h next_memory m _ IH Hinit]; [done|].
    apply CacheModel_init_Ok in Hinit as (_ & _ & ->). simpl. lia. }
  assert (0 < Z.of_nat (length addresses)) as Hlen
    by (destruct addresses; [done|simpl; lia]).
  unfold trial, perform_accesses. cbn. rewrite Hrun. cbn.
  apply Hdiv; lia.
Qed.
End experiment_more.

(** X9. An experiment on a new hierarchy, with a generator that never gives
    an empty sequence: with [max_retries <= 0] no trial is run and the
    assertion of [mean] fails; otherwise, in an arithmetic where the
    divisions of the trials (a total of at most [hi] per access, by the
    number of accesses) and of [mean] (by a count of at most [max_retries])
    return, as they do with floats in range, the experiment returns a
    value.  Running the trials on demand gives the same result. *)
Theorem experiment_result {num : Type} {Hnum : PyNum num} {G : Type}
    (m : MemoryModel) (gen : Z → G → result (list Z) * G)
    (stride max_retries hi : Z) (g : G) :
  fresh m → (∀ p, p ∈ penalties m → 0 ≤ p ≤ hi) →
  (∀ g0, ∃ l g1, gen stride g0 = (Ok l, g1) ∧ l ≠ []) →
  (∀ a n, 0 < n → 0 ≤ a ≤ n * hi → ∃ v : num, int_truediv a n = Ok v) →
  (∀ (a : num) n, 0 < n ≤ max_retries → ∃ v, truediv a n = Ok v) →
  (run_strided_experiment_from (num := num) (Ok m) gen stride max_retries g).1
    = run_strided_experiment (Ok m) gen stride max_retries g ∧
  if max_retries <=? 0 then
    run_strided_experiment (num := num) (Ok m) gen stride max_retries g
      = Raise AssertionError
  else
    ∃ v : num, run_strided_experiment (Ok m) gen stride max_retries g = Ok v.
Proof.
  intros Hfresh Hpen Hgen Hint Hdiv.
  split; [apply run_strided_experiment_from_value|].
  apply experiment_values; [|done]. intros g0.
  destruct (Hgen g0) as (l & g1 & Hl & Hne).
  destruct (trial_returns m l hi Hfresh Hpen Hne Hint) as (v & Hv).
  by exists l, g1, v.
Qed.

Lemma penalties_create_memory_models m p :
  create_memory_models = Ok m → p ∈ penalties m → 1 ≤ p ≤ 1000000.
Proof.
  intros [= <-] Hp. simpl in Hp.
  rewrite !elem_of_cons in Hp. rewrite elem_of_nil in Hp.
  destruct Hp as [->|[->|[->|[->|[]]]]]; lia.
Qed.

Lemma Qc_int_truediv_returns (a n : Z) :
  0 < n → ∃ v : Qc, int_truediv a n = Ok v.
Proof. intros Hn. eexists. apply (truediv_nonzero (Qc_of_Z a)). lia. Qed.

Lemma Qc_truediv_returns (a : Qc) (n : Z) : 0 < n → ∃ v : Qc, truediv a n = Ok v.
Proof. intros Hn. eexists. apply truediv_nonzero. lia. Qed.

Lemma experiment_result_witness :
  ∃ m (v : Qc), toy_cache = Ok m ∧
    run_strided_experiment (Ok m) two_addresses 64 MAX_TRIALS () = Ok v.
Proof.
  destruct toy_cache_fresh as (m & Hm & Hfresh).
  destruct (experiment_result (num := Qc) m two_addresses 64 MAX_TRIALS 100 ()
              Hfresh)
    as [_ (v & Hv)].
  - injection Hm as <-. intros p Hp. simpl in Hp.
    rewrite !elem_of_cons in Hp. rewrite elem_of_nil in Hp.
    destruct Hp as [->|[->|[]]]; lia.
  - intros g0. exists [0; 64], g0. split; [reflexivity|discriminate].
  - intros a n Hn _. exact (Qc_int_truediv_returns a n Hn).
  - intros a n [Hn _]. exact (Qc_truediv_returns a n Hn).
  - exists m, v. exact (conj Hm Hv).
Defined.

(** ** More on the address generators *)

(** X10. With a zero stride both generators raise [ValueError] (from
    [range]) before any draw; with a negative stride [range] is empty and
    both return the empty sequence without any draw, on which the trial
    runner then divides by zero. *)
Theorem generators_nonpositive_stride {num : Type} {Hnum : PyNum num}
    (stride : Z) (fuel : nat) (g : Random) (m : MemoryModel) :
  stride ≤ 0 →
  generate_random_strided_addresses fuel stride g
    = Some (if stride =? 0 then Raise ValueError else Ok [], g) ∧
  generate_directed_strided_addresses stride g
    = (if stride =? 0 then Raise ValueError else Ok [], g) ∧
  (stride < 0 →
   run_strided_experiment (num := num) (Ok m) generate_directed_strided_addresses
     stride MAX_TRIALS g = Raise ZeroDivisionError).
Proof.
  intros Hs.
  assert (range_len 0 ARRAY_SIZE stride
          = if stride =? 0 then Raise ValueError else Ok 0) as Hlen.
  { unfold range_len. destruct (stride =? 0) eqn:H0; [done|].
    apply Z.eqb_neq in H0.
    destruct (0 <? stride) eqn:H1; [apply Z.ltb_lt in H1; lia|].
    pose proof ARRAY_SIZE_pos.
    destruct (ARRAY_SIZE <? 0) eqn:H2; [apply Z.ltb_lt in H2; lia|done]. }
  assert (generate_directed_strided_addresses stride g
          = (if stride =? 0 then Raise ValueError else Ok [], g)) as Hdir.
  { unfold generate_directed_strided_addresses. rewrite Hlen.
    by destruct (stride =? 0). }
  split_and!.
  - unfold generate_random_strided_addresses. rewrite Hlen.
    destruct (stride =? 0); [done|]. by destruct fuel.
  - done.
  - intros Hneg. apply (run_strided_experiment_empty m _ stride MAX_TRIALS g g).
    + rewrite Hdir.
      destruct (stride =? 0) eqn:H0; [apply Z.eqb_eq in H0; lia|reflexivity].
    + reflexivity.
Qed.

Lemma generators_nonpositive_stride_witness :
  generate_random_strided_addresses 5 (-16) (draws [1; 2]) = Some (Ok [], draws [1; 2]) ∧
  generate_directed_strided_addresses 0 (draws [1; 2]) = (Raise ValueError, draws [1; 2]) ∧
  run_strided_experiment (num := Qc) (Ok (RamModel_init 100))
    generate_directed_strided_addresses (-16) MAX_TRIALS (draws [1; 2])
    = Raise ZeroDivisionError.
Proof.
  split_and!.
  - by apply (generators_nonpositive_stride (num := Qc) (-16) 5 (draws [1; 2])
                (RamModel_init 100)).
  - by apply (generators_nonpositive_stride (num := Qc) 0 5 (draws [1; 2])
                (RamModel_init 100)).
  - by apply (generators_nonpositive_stride (num := Qc) (-16) 5 (draws [1; 2])
                (RamModel_init 100)).
Defined.

(** X11. When [2 * stride] divides [ARRAY_SIZE], every address of the
    directed-strided generator, the second of each pair included, is a
    multiple of [stride] inside the array. *)
Theorem directed_strided_in_bounds (stride : Z) (g : Random) :
  1 ≤ stride → ARRAY_SIZE `mod` (2 * stride) = 0 →
  ∃ addresses g',
    generate_directed_strided_addresses stride g = (Ok addresses, g') ∧
    addresses ≠ [] ∧
    Forall (λ a, 0 ≤ a < ARRAY_SIZE ∧ a `mod` stride = 0) addresses.
Proof.
  intros Hs Hdiv.
  destruct (directed_strided_nonempty stride g Hs) as (bases & g' & Hgen & Hne & Hall).
  exists (paired stride bases), g'. split; [done|]. split.
  - destruct bases; [done|]. done.
  - clear Hgen Hne. induction Hall as [|b l [Hb Hmod] _ IH]; [constructor|].
    unfold paired in *. cbn [flat_map app].
    apply Z.mod_divide in Hmod as [q Hq]; [|lia].
    apply Z.mod_divide in Hdiv as [r Hr]; [|lia].
    constructor; [|constructor; [|done]].
    + split; [done|]. rewrite Hq. replace (q * (2 * stride)) with (q * 2 * stride) by lia.
      apply Z.mod_mul. lia.
    + split.
      * assert (q + 1 ≤ r) as Hqr by nia.
        assert ((q + 1) * (2 * stride) ≤ r * (2 * stride)) by nia. lia.
      * rewrite Hq.
        replace (q * (2 * stride) + stride)
          with ((q * 2 + 1) * stride) by lia.
        apply Z.mod_mul. lia.
Qed.

Lemma directed_strided_in_bounds_witness :
  ∃ addresses g',
    generate_directed_strided_addresses (2 ^ 29) (draws [0; 5; 1; 3; 8])
      = (Ok addresses, g') ∧
    Forall (λ a, 0 ≤ a < ARRAY_SIZE ∧ a `mod` 2 ^ 29 = 0) addresses.
Proof.
  destruct (directed_strided_in_bounds (2 ^ 29) (draws [0; 5; 1; 3; 8]))
    as (addresses & g' & Hgen & _ & Hall); [lia|reflexivity|].
  by exists addresses, g'.
Defined.

(** ** Pairs of the directed-strided generator in a cache *)









(** ** The sweep *)

Lemma generate_strides_sequence_fuel fuel fuel' stride max_stride l :
  generate_strides_sequence fuel stride max_stride = Some l →
  (fuel ≤ fuel')%nat →
  generate_strides_sequence fuel' stride max_stride = Some l.
Proof.
  revert fuel' stride l. induction fuel as [|fuel IH]; intros fuel' stride l; simpl.
  - destruct (stride <=? max_stride) eqn:Hle; [done|].
    intros [= <-] _. destruct fuel'; simpl; by rewrite Hle.
  - destruct (stride <=? max_stride) eqn:Hle.
    + destruct (generate_strides_sequence fuel (stride * 2) max_stride)
        as [rest|] eqn:Hrest; [|done].
      intros [= <-] Hfuel. destruct fuel' as [|fuel']; [lia|]. simpl. rewrite Hle.
      by rewrite (IH fuel' _ rest Hrest) by lia.
    + intros [= <-] _. destruct fuel'; simpl; by rewrite Hle.
Qed.

Lemma generate_strides_sequence_spec fuel stride max_stride :
  0 < stride → (Z.to_nat (max_stride - stride + 1) ≤ fuel)%nat →
  ∃ l, generate_strides_sequence fuel stride max_stride = Some l ∧
       (∀ i : nat, (i < length l)%nat → l !! i = Some (stride * 2 ^ Z.of_nat i)) ∧
       Forall (λ s, s ≤ max_stride) l ∧
       max_stride < stride * 2 ^ Z.of_nat (length l).
Proof.
  revert stride. induction fuel as [|fuel IH]; intros stride Hpos Hfuel.
  - exists []. simpl. destruct (stride <=? max_stride) eqn:Hle.
    + apply Z.leb_le in Hle. lia.
    + apply Z.leb_gt in Hle. split_and!; [done|simpl; lia|done|simpl; lia].
  - simpl. destruct (stride <=? max_stride) eqn:Hle.
    + apply Z.leb_le in Hle.
      destruct (IH (stride * 2)) as (rest & -> & Hnth & Hall & Hnext); [lia|lia|].
      exists (stride :: rest). split_and!; [done| |by constructor|].
      * intros [|i] Hi; simpl.
        -- f_equal. lia.
        -- rewrite Hnth by (simpl in Hi; lia). f_equal.
           rewrite Nat2Z.inj_succ, Z.pow_succ_r by lia. lia.
      * simpl length. rewrite Nat2Z.inj_succ, Z.pow_succ_r by lia. lia.
    + apply Z.leb_gt in Hle. exists []. split_and!; [done|simpl; lia|done|simpl; lia].
Qed.

(** X14. From a positive [min_stride] the strides are
    [min_stride * 2^i], as long as they are at most [max_stride]: the loop
    ends (within [max_stride - min_stride + 1] turns), every stride is at
    most [max_stride], and the next power would exceed it.  The result does
    not depend on the fuel, once there is enough. *)
Theorem strides_are_doublings (fuel : nat) (min_stride max_stride : Z) :
  0 < min_stride → (Z.to_nat (max_stride - min_stride + 1) ≤ fuel)%nat →
  ∃ l, (∀ fuel', (fuel ≤ fuel')%nat →
                 generate_strides_sequence fuel' min_stride max_stride = Some l) ∧
       (∀ i : nat, (i < length l)%nat →
                   l !! i = Some (min_stride * 2 ^ Z.of_nat i)) ∧
       Forall (λ s, min_stride ≤ s ≤ max_stride) l ∧
       max_stride < min_stride * 2 ^ Z.of_nat (length l).
Proof.
  intros Hpos Hfuel.
  destruct (generate_strides_sequence_spec fuel min_stride max_stride Hpos Hfuel)
    as (l & Hgen & Hnth & Hall & Hnext).
  exists l. split_and!; [|done| |done].
  - intros fuel' Hle. by apply (generate_strides_sequence_fuel fuel).
  - apply Forall_lookup. intros i s Hi. split.
    + rewrite Hnth in Hi by (by apply lookup_lt_Some in Hi). injection Hi as <-.
      assert (0 < 2 ^ Z.of_nat i) by (apply Z.pow_pos_nonneg; lia). nia.
    + by apply (proj1 (Forall_lookup _ _) Hall i s).
Qed.

Lemma strides_are_doublings_witness :
  ∃ l, (∀ fuel', (Z.to_nat 16369 ≤ fuel')%nat →
                 generate_strides_sequence fuel' 16 (16 * KB) = Some l) ∧
       l = [16; 32; 64; 128; 256; 512; 1024; 2048; 4096; 8192; 16384].
Proof.
  destruct (strides_are_doublings (Z.to_nat 16369) 16 (16 * KB)) as (l & Hgen & _);
    [lia|vm_compute; lia|].
  exists l. split; [done|].
  pose proof (Hgen (Z.to_nat 16369) (le_n _)) as Hl. vm_compute in Hl.
  by injection Hl.
Defined.

(** X15. From a [min_stride <= 0] that is at most [max_stride] the loop
    never ends: doubling keeps the stride at or below [min_stride], so no
    amount of fuel gives a list of strides, and the sweep runs no
    experiment. *)
Theorem strides_loop_forever {G : Type} (fuel : nat) (min_stride max_stride : Z)
    (mm : result MemoryModel) (gen : Z → G → result (list Z) * G)
    (max_retries : Z) (g : G) :
  min_stride ≤ 0 → min_stride ≤ max_stride →
  generate_strides_sequence fuel min_stride max_stride = None ∧
  run_strided_experiments mm gen fuel min_stride max_stride max_retries g = None.
Proof.
  intros Hneg Hle.
  assert (generate_strides_sequence fuel min_stride max_stride = None) as Hnone.
  { revert min_stride Hneg Hle. induction fuel as [|fuel IH]; intros s Hneg Hle; simpl.
    - by rewrite (proj2 (Z.leb_le _ _) Hle).
    - rewrite (proj2 (Z.leb_le _ _) Hle). by rewrite IH by lia. }
  split; [done|]. unfold run_strided_experiments. by rewrite Hnone.
Qed.

Lemma strides_loop_forever_witness :
  generate_strides_sequence 1000 0 (16 * KB) = None ∧
  run_strided_experiments create_memory_models generate_directed_strided_addresses
    1000 (-16) (16 * KB) MAX_TRIALS (draws []) = None.
Proof.
  split.
  - by apply (strides_loop_forever 1000 0 (16 * KB) create_memory_models
                generate_directed_strided_addresses MAX_TRIALS (draws [])).
  - by apply (strides_loop_forever 1000 (-16) (16 * KB) create_memory_models
                generate_directed_strided_addresses MAX_TRIALS (draws [])).
Defined.

Lemma experiments_loop_spec {num : Type} {Hnum : PyNum num} {G : Type} mm
    (gen : Z → G → result (list Z) * G) strides max_retries
    (results : list (Z * num)) (g : G) :
  ∃ rows printed out g',
    experiments_loop mm gen strides max_retries results g = (printed, out, g') ∧
    rows.*1 = take (length rows) strides ∧
    printed = (λ i, results ++ take (S i) rows) <$> seq 0 (length rows) ∧
    Forall (λ row, ∃ g0, run_strided_experiment mm gen row.1 max_retries g0
                         = Ok row.2) rows ∧
    match out with
    | Ok _ => length rows = length strides
    | Raise e =>
        ∃ stride g0, strides !! length rows = Some stride ∧
          run_strided_experiment (num := num) mm gen stride max_retries g0
            = Raise e
    end.
Proof.
  revert results g. induction strides as [|stride rest IH]; intros results g.
  - exists [], [], (Ok ()), g. by split_and!.
  - cbn [experiments_loop].
    pose proof (run_strided_experiment_from_value (num := num) mm gen stride
                  max_retries g) as Hval.
    destruct (run_strided_experiment_from mm gen stride max_retries g) as [[r|e] g1].
    + destruct (IH (results ++ [(stride, r)]) g1)
        as (rows & printed & out & g' & Hloop & Hstrides & Hprinted & Hrows & Hout).
      rewrite Hloop.
      exists ((stride, r) :: rows), ((results ++ [(stride, r)]) :: printed), out, g'.
      split; [done|]. split_and!.
      * simpl. by rewrite Hstrides at 1.
      * cbn [length seq fmap list_fmap]. f_equal.
        rewrite Hprinted, <- fmap_S_seq, <- list_fmap_compose.
        apply list_fmap_ext. intros i j _. simpl.
        by rewrite <- app_assoc.
      * constructor; [|done]. by exists g.
      * destruct out as [[]|e]; simpl; [by rewrite Hout|done].
    + exists [], [], (Raise e), g1. split_and!; [done..|].
      by exists stride, g.
Qed.

(** X16. The sweep hands [print_results] one table after each stage that
    returns: the [i]-th table is the first [i] rows of the last one, its
    strides are the first [i] strides in order, and every value in a row is
    what [run_strided_experiment] returns for the stride of the row, from
    some state of the random source.  The sweep ends normally exactly when
    every stride has its table; otherwise the experiment of the first
    stride without a table raised the exception that ends the sweep. *)
Theorem sweep_tables {num : Type} {Hnum : PyNum num} {G : Type}
    (mm : result MemoryModel)
    (gen : Z → G → result (list Z) * G) (fuel : nat)
    (min_stride max_stride max_retries : Z) (g g' : G)
    (printed : list (list (Z * num))) (out : result ()) :
  run_strided_experiments mm gen fuel min_stride max_stride max_retries g
    = Some (printed, out, g') →
  ∃ strides rows,
    generate_strides_sequence fuel min_stride max_stride = Some strides ∧
    rows.*1 = take (length rows) strides ∧
    printed = (λ i, take (S i) rows) <$> seq 0 (length rows) ∧
    Forall (λ row, ∃ g0, run_strided_experiment mm gen row.1 max_retries g0
                         = Ok row.2) rows ∧
    match out with
    | Ok _ => length rows = length strides
    | Raise e =>
        ∃ stride g0, strides !! length rows = Some stride ∧
          run_strided_experiment (num := num) mm gen stride max_retries g0
            = Raise e
    end.
Proof.
  unfold run_strided_experiments.
  destruct (generate_strides_sequence fuel min_stride max_stride) as [strides|];
    [|done].
  intros [= Hloop].
  destruct (experiments_loop_spec mm gen strides max_retries [] g)
    as (rows & printed' & out' & g1 & Hloop' & Hstrides & Hprinted & Hrows & Hout).
  rewrite Hloop in Hloop'. injection Hloop' as <- <- <-.
  by exists strides, rows.
Qed.

Lemma sweep_tables_witness :
  ∃ (printed : list (list (Z * Qc))) out g' rows,
    run_strided_experiments toy_cache two_addresses 10 16 40 MAX_TRIALS ()
      = Some (printed, out, g') ∧
    rows.*1 = take (length rows) [16; 32] ∧
    printed = (λ i, take (S i) rows) <$> seq 0 (length rows).
Proof.
  destruct (run_strided_experiments (num := Qc) toy_cache two_addresses 10 16 40
              MAX_TRIALS ())
    as [[[printed out] g']|] eqn:Hrun; [|by vm_compute in Hrun].
  destruct (sweep_tables _ _ _ _ _ _ _ _ _ _ Hrun)
    as (strides & rows & Hgen & Hstrides & Hprinted & _).
  vm_compute in Hgen. injection Hgen as <-.
  exists printed, out, g', rows. exact (conj eq_refl (conj Hstrides Hprinted)).
Defined.

(** An experiment of the script, at any stride from 1 on. *)
Lemma script_experiment {num : Type} {Hnum : PyNum num} stride g0 :
  (∀ a n, 0 < n → 0 ≤ a ≤ n * 1000000 → ∃ v : num, int_truediv a n = Ok v) →
  (∀ (a : num) n, 0 < n ≤ MAX_TRIALS → ∃ v, truediv a n = Ok v) →
  1 ≤ stride →
  ∃ v : num, run_strided_experiment create_memory_models
               generate_directed_strided_addresses stride MAX_TRIALS g0 = Ok v.
Proof.
  intros Hint Hdiv Hs. destruct create_memory_models_fresh as (m & Hm & Hfresh & _).
  pose proof (experiment_values (num := num) create_memory_models
                generate_directed_strided_addresses stride MAX_TRIALS g0) as Hexp.
  change (MAX_TRIALS <=? 0) with false in Hexp. apply Hexp; [|exact Hdiv].
  intros g1.
  destruct (directed_strided_nonempty stride g1 Hs) as (bases & g2 & Hgen & Hne & _).
  destruct (trial_returns (num := num) m (paired stride bases) 1000000 Hfresh)
    as (v & Hv).
  - intros p Hp. pose proof (penalties_create_memory_models m p Hm Hp). lia.
  - by destruct bases.
  - exact Hint.
  - exists (paired stride bases), g2, v. rewrite Hm.
    exact (conj Hgen Hv).
Qed.

(** X17. The call at the end of the module, for every state of the random
    source, in an arithmetic where the divisions of the trials (a total of
    at most 1000000 per access, by the number of accesses) and of [mean] (by
    a count of at most [MAX_TRIALS]) return, as they do with floats: the
    sweep has the eleven strides 16, 32, ..., 16384, no stage raises, eleven
    tables are printed, the last one with one row per stride in this order,
    and every value in it is what the experiment of its stride returned. *)
Theorem main_sweep {num : Type} {Hnum : PyNum num} (fuel : nat) (g : Random) :
  (11 ≤ fuel)%nat →
  (∀ a n, 0 < n → 0 ≤ a ≤ n * 1000000 → ∃ v : num, int_truediv a n = Ok v) →
  (∀ (a : num) n, 0 < n ≤ MAX_TRIALS → ∃ v, truediv a n = Ok v) →
  ∃ (printed : list (list (Z * num))) g' rows,
    main fuel g = Some (printed, Ok (), g') ∧
    length printed = 11%nat ∧
    last printed = Some rows ∧
    rows.*1 = [16; 32; 64; 128; 256; 512; 1024; 2048; 4096; 8192; 16384] ∧
    Forall (λ row, ∃ g0, run_strided_experiment create_memory_models
                           generate_directed_strided_addresses row.1 MAX_TRIALS g0
                         = Ok row.2) rows.
Proof.
  intros Hfuel Hint Hdiv. unfold main, run_strided_experiments.
  set (strides := [16; 32; 64; 128; 256; 512; 1024; 2048; 4096; 8192; 16384]).
  assert (generate_strides_sequence fuel 16 (16 * KB) = Some strides) as ->.
  { by apply (generate_strides_sequence_fuel 11). }
  assert (Forall (λ s, 1 ≤ s) strides) as Hpos.
  { unfold strides. repeat constructor; lia. }
  destruct (experiments_loop_spec (num := num) create_memory_models
              generate_directed_strided_addresses strides MAX_TRIALS [] g)
    as (rows & printed & out & g' & Hloop & Hstrides & Hprinted & Hrows & Hout).
  assert (main_result :
            Some (experiments_loop (num := num) create_memory_models
                    generate_directed_strided_addresses strides MAX_TRIALS [] g)
            = Some (printed, out, g')) by (rewrite Hloop; reflexivity).
  clear Hloop. revert main_result.
  generalize (experiments_loop (num := num) create_memory_models
                generate_directed_strided_addresses strides MAX_TRIALS [] g).
  intros loop_result Hresult.
  destruct out as [[]|e].
  - exists printed, g', rows. split; [exact Hresult|].
    change (length strides) with 11%nat in Hout.
    rewrite Hout in Hstrides, Hprinted. split_and!.
    + rewrite Hprinted. reflexivity.
    + rewrite Hprinted. cbn [seq fmap list_fmap last].
      rewrite take_ge by lia. reflexivity.
    + rewrite Hstrides. reflexivity.
    + exact Hrows.
  - exfalso. destruct Hout as (stride & g0 & Hlookup & Hraise).
    assert (1 ≤ stride) as Hs
      by exact (proj1 (Forall_lookup _ _) Hpos _ _ Hlookup).
    destruct (script_experiment (num := num) stride g0 Hint Hdiv Hs) as (v & Hv).
    rewrite Hraise in Hv. discriminate Hv.
Qed.

Lemma main_sweep_witness :
  ∃ (printed : list (list (Z * Qc))) g' rows,
    main 11 (draws [2; 7; 1; 8; 2; 8]) = Some (printed, Ok (), g') ∧
    length printed = 11%nat ∧ last printed = Some rows ∧
    rows.*1 = [16; 32; 64; 128; 256; 512; 1024; 2048; 4096; 8192; 16384].
Proof.
  destruct (main_sweep (num := Qc) 11 (draws [2; 7; 1; 8; 2; 8]) (le_n _))
    as (printed & g' & rows & Hmain & Hlen & Hlast & Hstrides & _).
  - intros a n Hn _. exact (Qc_int_truediv_returns a n Hn).
  - intros a n [Hn _]. exact (Qc_truediv_returns a n Hn).
  - exists printed, g', rows. exact (conj Hmain (conj Hlen (conj Hlast Hstrides))).
Defined.

(** ** The random-strided generator, when it returns *)

Lemma randrange_value g step len :
  1 ≤ step → range_len 0 ARRAY_SIZE step = Ok len →
  randrange g 0 ARRAY_SIZE step
  = (Ok (0 + step * (entropy g (cursor g) `mod` len)),
     mkRandom (entropy g) (S (cursor g))).
Proof.
  intros Hs Hlen. destruct (range_len_strided step Hs) as (n & Hn & Hpos & _).
  rewrite Hlen in Hn. injection Hn as <-.
  unfold randrange. rewrite Hlen.
  destruct (len <=? 0) eqn:Hle; [apply Z.leb_le in Hle; lia|]. done.
Qed.

Lemma random_strided_loop_distinct (e : nat → Z) (c k : nat) stride len :
  1 ≤ stride → range_len 0 ARRAY_SIZE stride = Ok len →
  (∀ i j, (i < j < k)%nat →
          (e (c + i)%nat `mod` len) ≠ (e (c + j)%nat `mod` len)) →
  ∀ (d j fuel : nat) (result_set : gset Z) (res : list Z),
    (j + d = k)%nat → (d ≤ fuel)%nat →
    res = (λ i, 0 + stride * (e (c + i)%nat `mod` len)) <$> seq 0 j →
    result_set = list_to_set res → size result_set = j → NoDup res →
    ∃ l, random_strided_loop fuel stride (Z.of_nat k) result_set res
           (mkRandom e (c + j))
         = Some (Ok l, mkRandom e (c + k)) ∧
         l = (λ i, 0 + stride * (e (c + i)%nat `mod` len)) <$> seq 0 k ∧
         NoDup l.
Proof.
  intros Hs Hlen Hdistinct.
  induction d as [|d IH]; intros j fuel result_set res Hjk Hfuel Hres Hset Hsize Hnd.
  - assert (j = k) as -> by lia. exists res.
    assert ((Z.of_nat (size result_set) <? Z.of_nat k) = false) as Hdone
      by (apply Z.ltb_ge; lia).
    destruct fuel; simpl; rewrite Hdone; by split_and!.
  - destruct fuel as [|fuel]; [lia|]. simpl.
    assert ((Z.of_nat (size result_set) <? Z.of_nat k) = true) as ->
      by (apply Z.ltb_lt; lia).
    rewrite (randrange_value _ stride len Hs Hlen). cbn [entropy cursor].
    set (n := 0 + stride * (e (c + j)%nat `mod` len)).
    assert (n ∉ res) as Hnew.
    { rewrite Hres. intros (i & Heq & Hi)%list_elem_of_fmap.
      apply elem_of_seq in Hi. unfold n in Heq.
      apply (Hdistinct i j); [lia|]. nia. }
    replace (S (c + j)) with (c + S j)%nat by lia.
    apply (IH (S j)); [lia|lia| | | |].
    + rewrite seq_S, fmap_app. simpl. by rewrite <- Hres.
    + rewrite list_to_set_app_L, Hset. set_solver.
    + rewrite size_union by (rewrite Hset; set_solver).
      rewrite size_singleton. lia.
    + apply NoDup_app. split_and!; [done| |apply NoDup_singleton].
      by intros x Hx ->%list_elem_of_singleton.
Qed.

(** X18. When the draws that the random-strided generator takes are
    pairwise distinct positions, as many of them as addresses are asked for,
    the loop ends after exactly that many draws and the addresses returned
    are these positions times [stride], in the order of the draws, without
    any repetition: the case in which the list is a sample without
    replacement. *)
Theorem random_strided_distinct_draws (fuel : nat) (stride n_strided : Z)
    (g : Random) :
  1 ≤ stride → range_len 0 ARRAY_SIZE stride = Ok n_strided →
  (Z.to_nat (Z.min MAX_ADDRESSES n_strided) ≤ fuel)%nat →
  (∀ i j, (i < j < Z.to_nat (Z.min MAX_ADDRESSES n_strided))%nat →
          (entropy g (cursor g + i)%nat `mod` n_strided)
          ≠ (entropy g (cursor g + j)%nat `mod` n_strided)) →
  ∃ l, generate_random_strided_addresses fuel stride g
       = Some (Ok l, mkRandom (entropy g)
                       (cursor g + Z.to_nat (Z.min MAX_ADDRESSES n_strided))) ∧
       l = (λ i, stride * (entropy g (cursor g + i)%nat `mod` n_strided))
             <$> seq 0 (Z.to_nat (Z.min MAX_ADDRESSES n_strided)) ∧
       NoDup l ∧
       Z.of_nat (length l) = Z.min MAX_ADDRESSES n_strided.
Proof.
  intros Hs Hlen Hfuel Hdistinct.
  destruct (range_len_strided stride Hs) as (n & Hn & Hpos & _).
  rewrite Hlen in Hn. injection Hn as <-.
  set (k := Z.to_nat (Z.min MAX_ADDRESSES n_strided)) in *.
  assert (Z.of_nat k = Z.min MAX_ADDRESSES n_strided) as Hk.
  { unfold k. apply Z2Nat.id. assert (0 < MAX_ADDRESSES) by done. lia. }
  destruct (random_strided_loop_distinct (entropy g) (cursor g) k stride n_strided
              Hs Hlen Hdistinct k 0%nat fuel ∅ [])
    as (l & Hloop & Hl & Hnd); [lia|lia|done|done|by rewrite size_empty|apply NoDup_nil_2|].
  exists l. unfold generate_random_strided_addresses. rewrite Hlen. cbn zeta.
  rewrite <- Hk. rewrite Nat.add_0_r in Hloop.
  replace (mkRandom (entropy g) (cursor g)) with g in Hloop by (by destruct g).
  split; [done|]. split_and!; [|done|].
  - rewrite Hl. apply list_fmap_ext. intros i j _. lia.
  - rewrite Hl, length_fmap, length_seq. done.
Qed.

Lemma random_strided_distinct_draws_witness :
  ∃ g', generate_random_strided_addresses 2 (2 ^ 30) (draws [5; 2])
        = Some (Ok [2 ^ 30; 0], g') ∧ NoDup [2 ^ 30; 0].
Proof.
  destruct (random_strided_distinct_draws 2 (2 ^ 30) 2 (draws [5; 2]))
    as (l & Hgen & Hl & Hnd & _); [lia|reflexivity|vm_compute; lia| |].
  - intros i j Hij.
    assert (i = 0%nat ∧ j = 1%nat) as [-> ->] by (vm_compute in Hij; lia).
    vm_compute. discriminate.
  - vm_compute in Hl. subst l. eexists. split; [exact Hgen|exact Hnd].
Defined.

(** X19. Whenever the random-strided generator returns for a
    [stride >= 1], it returns a list: every element is a multiple of
    [stride] below [ARRAY_SIZE], the distinct elements are exactly
    [min(MAX_ADDRESSES, n_strided)] many, and the list is at least that
    long (longer when a draw was repeated). *)
Theorem random_strided_distinct_count (fuel : nat) (stride : Z) (g g' : Random)
    (out : result (list Z)) :
  1 ≤ stride →
  generate_random_strided_addresses fuel stride g = Some (out, g') →
  ∃ n_strided l, range_len 0 ARRAY_SIZE stride = Ok n_strided ∧ out = Ok l ∧
    Z.of_nat (size (list_to_set l : gset Z)) = Z.min MAX_ADDRESSES n_strided ∧
    Z.min MAX_ADDRESSES n_strided ≤ Z.of_nat (length l) ∧
    Forall (λ n, 0 ≤ n < ARRAY_SIZE ∧ n `mod` stride = 0) l.
Proof. intros Hs Hgen. by apply (random_strided_values fuel stride g out g'). Qed.

Lemma random_strided_distinct_count_witness :
  ∃ l, fst <$> generate_random_strided_addresses 3 (2 ^ 30) (draws [0; 0; 1])
       = Some (Ok l) ∧
       Z.of_nat (size (list_to_set l : gset Z)) = 2 ∧ 2 ≤ Z.of_nat (length l).
Proof.
  destruct (generate_random_strided_addresses 3 (2 ^ 30) (draws [0; 0; 1]))
    as [[out g']|] eqn:Hgen; [|by vm_compute in Hgen].
  destruct (random_strided_distinct_count 3 (2 ^ 30) (draws [0; 0; 1]) g' out)
    as (n & l & Hn & -> & Hsize & Hlen & _); [lia|done|].
  vm_compute in Hn. injection Hn as <-.
  exists l. by split_and!.
Defined.
